(** * musiccharts: chord formatting and the key passes of the command line

    A shallow embedding of [musiccharts/data_processing.py]
    ([validate_keys], [format_line]), of [musiccharts/cli.py] ([main], from
    the parsed arguments on) and of [musiccharts/read_file.py]
    ([read_file_contents]), with the properties claimed of them and further
    properties of the code.

    Python values are modelled as follows.
    - [str] is a sequence of Unicode code points: [list N].  [len] is
      [length], [+] is [++].
    - a [dict] with string keys whose order is never observed is a [gmap];
      the dict a function returns and that is read with [.get] is an
      association list.
    - an exception or [sys.exit] ends a computation: [result].
    - [print] and the call of [process_document] are events of a run. *)

From Stdlib Require Import ZArith NArith List String Ascii Lia DecimalString.
From stdpp Require Import base option list gmap.

Local Open Scope list_scope.

(** ** Python strings *)

Module Py.

Abbreviation str := (list N).

(** An ASCII literal as a [str]. *)
Fixpoint lit (s : string) : str :=
  match s with
  | EmptyString => []
  | String a r => N_of_ascii a :: lit r
  end.

Definition SPACE : N := 32.
Definition NEWLINE : N := 10.
Definition SLASH : N := 47.
Definition LPAREN : N := 40.
Definition RPAREN : N := 41.
(** U+25B3, the triangle of the chord notation. *)
Definition TRIANGLE : N := 9651.

(** [strip_prefix p s] is the rest of [s] after its prefix [p]. *)
Fixpoint strip_prefix (p s : str) : option str :=
  match p, s with
  | [], _ => Some s
  | a :: p', b :: s' => if N.eqb a b then strip_prefix p' s' else None
  | _ :: _, [] => None
  end.

Definition startswith (s p : str) : bool :=
  match strip_prefix p s with Some _ => true | None => false end.

(** [s.replace(old, new)] for a non-empty [old]: occurrences are found from
    the left and do not overlap; [skip] counts the characters of the
    occurrence just replaced that are still to be dropped. *)
Fixpoint replace_from (old new : str) (skip : nat) (s : str) : str :=
  match s with
  | [] => []
  | c :: s' =>
      match skip with
      | S k => replace_from old new k s'
      | O =>
          if startswith s old
          then new ++ replace_from old new (length old - 1) s'
          else c :: replace_from old new 0 s'
      end
  end.

(** [s.replace(old, new)].  An empty [old] matches before every character
    and at the end. *)
Definition replace (s old new : str) : str :=
  match old with
  | [] => new ++ flat_map (fun c => c :: new) s
  | _ :: _ => replace_from old new 0 s
  end.

(** [s.split(sep)] for a separator of one character. *)
Fixpoint split (sep : N) (s : str) : list str :=
  match s with
  | [] => [[]]
  | c :: s' =>
      if N.eqb c sep then [] :: split sep s'
      else match split sep s' with
           | h :: t => (c :: h) :: t
           | [] => [[c]]
           end
  end.

(** [s.count(c)] for a substring of one character. *)
Definition count (c : N) (s : str) : nat :=
  length (filter (fun x => x = c) s).

(** [sep.join(l)]. *)
Fixpoint join (sep : str) (l : list str) : str :=
  match l with
  | [] => []
  | [s] => s
  | s :: l' => s ++ sep ++ join sep l'
  end.

(** [str.isspace] on one code point. *)
Definition isspace (c : N) : bool :=
  ((9 <=? c) && (c <=? 13) || (28 <=? c) && (c <=? 32)
   || (c =? 133) || (c =? 160) || (c =? 5760)
   || (8192 <=? c) && (c <=? 8202) || (c =? 8232) || (c =? 8233)
   || (c =? 8239) || (c =? 8287) || (c =? 12288))%N.

Fixpoint lstrip (s : str) : str :=
  match s with
  | c :: s' => if isspace c then lstrip s' else s
  | [] => []
  end.

(** [s.rstrip()]. *)
Definition rstrip (s : str) : str := rev (lstrip (rev s)).

(** [n * " "]: a negative count gives the empty string. *)
Definition spaces (n : Z) : str := repeat SPACE (Z.to_nat n).

(** [str(n)] for an [int]. *)
Definition str_of_int (n : Z) : str := lit (NilZero.string_of_int (Z.to_int n)).

(** [s.ljust(width)]. *)
Definition ljust (width : nat) (s : str) : str :=
  s ++ repeat SPACE (width - length s).

End Py.
Import Py.

Arguments replace : simpl never.
Arguments spaces : simpl never.
Arguments isspace : simpl never.

(** ** Exceptions *)

Inductive exn : Type :=
  | KeyError
  | IndexError
  | TypeError
  | SystemExit (code : Z).

Inductive result (A : Type) : Type :=
  | Ok (a : A)
  | Raise (e : exn).
Arguments Ok {A} a.
Arguments Raise {A} e.

#[global] Instance result_ret : MRet result := fun _ a => Ok a.
#[global] Instance result_bind : MBind result := fun _ _ f m =>
  match m with
  | Ok a => f a
  | Raise e => Raise e
  end.

(** [d[k]] on a dict: [KeyError] for a missing key. *)
Definition getitem {V} (d : gmap (list N) V) (k : str) : result V :=
  match d !! k with
  | Some v => Ok v
  | None => Raise KeyError
  end.

(** [l[i]] on a list: [IndexError] out of range. *)
Definition index {A} (l : list A) (i : nat) : result A :=
  match l !! i with
  | Some v => Ok v
  | None => Raise IndexError
  end.

(** ** Values and runs *)

(** The dict [{"chord": ..., "line_num": ...}] of one chord syntax error. *)
Record chord_error : Type := ChordError {
  chord : str;
  line_num : Z
}.

(** The values stored in the dict that [format_line] returns and that
    [main] passes by keyword. *)
Inductive pyval : Type :=
  | VNone
  | VBool (b : bool)
  | VInt (n : Z)
  | VStr (s : str)
  | VErrors (l : list chord_error).

#[global] Instance chord_error_eq_dec : EqDecision chord_error.
Proof. solve_decision. Defined.

#[global] Instance pyval_eq_dec : EqDecision pyval.
Proof. solve_decision. Defined.

Abbreviation dict := (list (list N * pyval)).

(** [d.get(k)]: [None] for a missing key. *)
Fixpoint dict_get (d : dict) (k : str) : pyval :=
  match d with
  | [] => VNone
  | (k', v) :: d' => if bool_decide (k' = k) then v else dict_get d' k
  end.

(** What a run shows: a [print], or a call of [process_document], whose
    typesetting is outside this development. *)
Inductive event : Type :=
  | EvPrint (text : str)
  | EvProcessDocument (dest_filename : str) (file_contents : list pyval).

#[global] Instance event_eq_dec : EqDecision event.
Proof. solve_decision. Defined.

(** A run: its events in order, and how it ends. *)
Record run (A : Type) : Type := Run {
  out : list event;
  res : result A
}.
Arguments Run {A} out res.
Arguments out {A} r.
Arguments res {A} r.

Definition run_bind {A B} (m : run A) (f : A -> run B) : run B :=
  match res m with
  | Ok a => Run (out m ++ out (f a)) (res (f a))
  | Raise e => Run (out m) (Raise e)
  end.

Fixpoint for_each_run {A} (body : A -> run unit) (l : list A) : run unit :=
  match l with
  | [] => Run [] (Ok tt)
  | a :: l' => run_bind (body a) (fun _ => for_each_run body l')
  end.

(** ** musiccharts/data_definitions.py

    The module [data_definitions] (imported as [vars]) is outside this
    development.  What [data_processing] and [cli] use of it is taken as a
    parameter: the table [CHORDS] and, for each compiled pattern, its
    [findall]. *)

(** One element of [CHORD_REGEX1.findall]: the five groups [item[0]] to
    [item[4]] that [format_line] reads. *)
Record chord_match : Type := ChordMatch {
  field0 : str;
  field1 : str;
  field2 : str;
  field3 : str;
  field4 : str
}.

(** One element of [TITLE_REGEX.findall], reduced to the two groups that
    [format_line] reads: [title_matches[0][1]] and [title_matches[0][3]]. *)
Record title_match : Type := TitleMatch {
  title_group1 : str;
  title_group3 : str
}.

Record data_definitions : Type := DataDefinitions {
  CHORDS : gmap (list N) (gmap (list N) (list N));
  INTRO_REGEX : str -> list str;
  TITLE_REGEX : str -> list title_match;
  LABEL_REGEX : str -> list str;
  CHORD_REGEX1 : str -> list chord_match;
  CHORD_REGEX2 : str -> list str;
  CHORD_REGEX3 : str -> list str
}.

(** ** musiccharts/data_processing.py *)

Definition NNS : str := lit "NNS".

(** [item[i]] for [i] in [range(0, 5)]. *)
Definition item_get (item : chord_match) (i : nat) : str :=
  match i with
  | 0 => field0 item
  | 1 => field1 item
  | 2 => field2 item
  | 3 => field3 item
  | _ => field4 item
  end.

(** [item[3] = v]. *)
Definition item_set3 (item : chord_match) (v : str) : chord_match :=
  ChordMatch (field0 item) (field1 item) (field2 item) v (field4 item).

(** ["".join(item)]. *)
Definition item_join (item : chord_match) : str :=
  join [] [field0 item; field1 item; field2 item; field3 item; field4 item].

(** [s not in ["", " ", "\n"]]. *)
Definition not_blank (s : str) : bool :=
  negb (bool_decide (s ∈ [[]; [SPACE]; [NEWLINE]])).

(** The local variables of the loop over one chord match. *)
Record chord_vars : Type := ChordVars {
  item : chord_match;
  original_chord : str;
  edited_chord : str;
  remove_full_space : Z;
  remove_partial_space : Z;
  chord_errors : list chord_error
}.

(** Lines 124 and 125: the text to replace, with one space more when
    [remove_full_space == 1]. *)
Definition final_original (v : chord_vars) : str :=
  if bool_decide (remove_full_space v = 1%Z)
  then original_chord v ++ [SPACE] else original_chord v.

(** Lines 126 and 127: [chords.append(pair)] unless the pair is in the
    list. *)
Definition add_once (chords : list (str * str)) (pair : str * str)
  : list (str * str) :=
  if bool_decide (pair ∈ chords) then chords else chords ++ [pair].

Section DataProcessing.

Variable vars : data_definitions.

(** Lines 24 to 27 of [validate_keys]: the list [bad_keys] after the
    loop. *)
Definition bad_keys (keys : list str) : list str :=
  fold_left
    (fun bad key =>
       if bool_decide (key ∈ dom (CHORDS vars)) then bad else bad ++ [key])
    keys [].

(** [validate_keys(keys)]. *)
Definition validate_keys (keys : list str) : run unit :=
  let bad := bad_keys keys in
  if bool_decide (0 < length bad)%nat then
    Run [EvPrint ([NEWLINE] ++ lit "Error - invalid keys found: "
                  ++ join (lit ",") bad ++ [NEWLINE])]
      (Raise (SystemExit 1))
  else Run [] (Ok tt).

(** [vars.CHORDS[key][token]]. *)
Definition translate (key token : str) : result str :=
  table ← getitem (CHORDS vars) key;
  getitem table token.

(** [translation] is added to [edited_chord]; [remove_full_space] is
    incremented when [len(translation) > bound]. *)
Definition add_translation (v : chord_vars) (translation : str) (bound : nat)
  : chord_vars :=
  ChordVars (item v) (original_chord v) (edited_chord v ++ translation)
    (if bool_decide (bound < length translation)%nat
     then remove_full_space v + 1 else remove_full_space v)%Z
    (remove_partial_space v) (chord_errors v).

Definition add_edited (v : chord_vars) (s : str) : chord_vars :=
  ChordVars (item v) (original_chord v) (edited_chord v ++ s)
    (remove_full_space v) (remove_partial_space v) (chord_errors v).

(** Lines 119 to 121: the superscript of [item[3]] with its filler. *)
Definition superscript_post (v : chord_vars) : chord_vars :=
  let text := field3 (item v) in
  let count := (Z.of_nat (length (replace text [TRIANGLE] []))
                - remove_partial_space v)%Z in
  let spacing := spaces count in
  add_edited v (lit "\ts{" ++ text ++ lit "{\thin" ++ spacing ++ lit "}}").

(** The test of lines 106 to 110 on an inversion. *)
Definition invalid_inversion (text bass : str) : bool :=
  bool_decide (length (CHORD_REGEX2 vars (SLASH :: bass)) = 0%nat)
  || bool_decide (length (CHORD_REGEX3 vars (SLASH :: bass)) = 1%nat)
  || bool_decide (1 < count SLASH text)%nat.

(** One iteration of [for i in range(0, 5)], lines 80 to 123. *)
Definition chord_step (key : str) (num : Z) (v0 : chord_vars) (i : nat)
  : result chord_vars :=
  let it := item_get (item v0) i in
  let v := ChordVars (item v0) (original_chord v0 ++ it) (edited_chord v0)
             (remove_full_space v0) (remove_partial_space v0)
             (chord_errors v0) in
  match i with
  | 1 =>
      if bool_decide (key = NNS) then
        if not_blank it then
          let spacing :=
            spaces (Z.of_nat (length (replace it [TRIANGLE] []))) in
          Ok (add_edited v
                (lit "\ts{{\thin" ++ spacing ++ lit "}" ++ it ++ lit "}"))
        else Ok v
      else
        translation ← translate key (field1 (item v) ++ field2 (item v));
        Ok (add_translation v translation 1)
  | 2 =>
      if bool_decide (key = NNS) then
        translation ← translate key it;
        Ok (add_translation v translation 1)
      else Ok v
  | 3 =>
      if not_blank it then
        if bool_decide (SLASH ∈ it) then
          let splits := split SLASH it in
          bass ← index splits 1;
          if invalid_inversion it bass then
            (* the error is recorded; [continue] goes on with [i = 4] *)
            Ok (ChordVars (item v) (original_chord v) (edited_chord v)
                  (remove_full_space v) (remove_partial_space v)
                  (chord_errors v ++ [ChordError (item_join (item v)) num]))
          else
            translation ← translate key bass;
            head ← index splits 0;
            let v1 := ChordVars
                        (item_set3 (item v) (head ++ [SLASH] ++ translation))
                        (original_chord v) (edited_chord v)
                        (if bool_decide (length bass < length translation)%nat
                         then remove_full_space v + 1
                         else remove_full_space v)%Z
                        (remove_partial_space v) (chord_errors v) in
            Ok (superscript_post v1)
        else Ok (superscript_post v)
      else Ok v
  | _ => Ok (add_edited v it)
  end.

(** A loop body run over a list, stopping at the first exception. *)
Fixpoint for_each {S A} (body : S -> A -> result S) (s : S) (l : list A)
  : result S :=
  match l with
  | [] => Ok s
  | a :: l' => s' ← body s a; for_each body s' l'
  end.

(** The five iterations over one match, from the values set at lines 74
    to 78. *)
Definition chord_loop_of (key : str) (num : Z) (errors : list chord_error)
    (m : chord_match) : result chord_vars :=
  for_each (chord_step key num) (ChordVars m [] [] 0 0 errors) (seq 0 5).

(** The state of the loop over [chord_matches]: [chords] and
    [chord_errors]. *)
Definition chord_body (key : str) (num : Z)
    (st : list (str * str) * list chord_error) (m : chord_match)
  : result (list (str * str) * list chord_error) :=
  v ← chord_loop_of key num (snd st) m;
  Ok (add_once (fst st) (final_original v, edited_chord v), chord_errors v).

(** Lines 53 to 67: intro, title and label markup. *)
Definition format_intro (line : str) : str :=
  fold_left (fun l it => replace l it (lit "\hfill{\textbf{" ++ it ++ lit "}}"))
    (INTRO_REGEX vars line) line.

Definition format_title (line : str) : str :=
  match TITLE_REGEX vars line with
  | t :: _ => lit "\underline{\bigtitle{" ++ title_group1 t ++ lit "}}"
              ++ title_group3 t
  | [] => line
  end.

Definition format_labels (line : str) : str :=
  fold_left (fun l it => replace l it (lit "\textbf{" ++ it ++ lit "}"))
    (LABEL_REGEX vars line) line.

(** Line 70: the matches of the line without its parentheses. *)
Definition chord_matches (line : str) : list chord_match :=
  CHORD_REGEX1 vars (replace (replace line [LPAREN] []) [RPAREN] []).

(** Lines 130 and 131. *)
Definition substitute (line : str) (chords : list (str * str)) : str :=
  fold_left (fun l c => rstrip (replace (l ++ [SPACE]) (fst c) (snd c)))
    chords line.

(** [format_line(line, line_num, key)].  The parameter [debug] only adds
    two prints and is [False] wherever the function is called. *)
Definition format_line (line : str) (num : Z) (key : str) : result dict :=
  let line := format_labels (format_title (format_intro line)) in
  st ← for_each (chord_body key num) ([], []) (chord_matches line);
  Ok [(lit "edits", VStr (substitute line (fst st)));
      (lit "errors", VErrors (snd st))].

End DataProcessing.

(** ** musiccharts/cli.py *)

(** The parameters that [format_line] declares. *)
Definition FORMAT_LINE_PARAMETERS : list str :=
  map lit ["line"; "line_num"; "key"; "debug"]%string.

(** A call of [format_line] by keyword.  A keyword that the function does
    not declare is a [TypeError], and so is a missing [line], [line_num] or
    [key]. *)
Definition format_line_keywords (vars : data_definitions) (kwargs : dict)
  : result dict :=
  if forallb (fun kv => bool_decide (fst kv ∈ FORMAT_LINE_PARAMETERS)) kwargs
  then
    match dict_get kwargs (lit "line"), dict_get kwargs (lit "line_num"),
          dict_get kwargs (lit "key") with
    | VStr line, VInt num, VStr key => format_line vars line num key
    | _, _, _ => Raise TypeError
    end
  else Raise TypeError.

(** The same call with the keywords that [format_line] does not declare
    left out. *)
Definition format_line_declared (vars : data_definitions) (kwargs : dict)
  : result dict :=
  format_line_keywords vars
    (filter (fun kv => fst kv ∈ FORMAT_LINE_PARAMETERS) kwargs).

(** The local variables of the loop over the lines of one key. *)
Record pass_vars : Type := PassVars {
  formatted_lines : list pyval;
  pass_errors : list chord_error;
  i : Z;
  next_line_after_intro : pyval
}.

Section Cli.

Variable vars : data_definitions.

(** The function that the name [format_line] stands for in [main], called
    by keyword. *)
Variable format_line_call : dict -> result dict.

(** The keywords of the call at lines 99 to 105. *)
Definition call_keywords (line : str) (num : Z) (key : str) (flag : pyval)
  : dict :=
  [(lit "line", VStr line); (lit "line_num", VInt num); (lit "key", VStr key);
   (lit "next_line_after_intro", flag); (lit "debug", VBool false)].

(** [chord_errors.extend(v)]: only a list of errors is stored under
    [errors] by the functions of this development; [None] cannot be
    iterated. *)
Definition iterate (v : pyval) : result (list chord_error) :=
  match v with
  | VErrors l => Ok l
  | _ => Raise TypeError
  end.

(** Lines 99 to 109: one line of the chart. *)
Definition line_body (key : str) (st : pass_vars) (line : str)
  : result pass_vars :=
  results ← format_line_call
              (call_keywords line (i st) key (next_line_after_intro st));
  errors ← iterate (dict_get results (lit "errors"));
  Ok (PassVars
        (formatted_lines st ++ [dict_get results (lit "edits")])
        (pass_errors st ++ errors)
        (i st + 1)
        (dict_get results (lit "next_line_after_intro"))).

(** Lines 94 to 109: the pass of one key over the chart. *)
Definition key_pass (key : str) (file_contents : list str)
  : result pass_vars :=
  for_each (line_body key) (PassVars [] [] 0 (VBool false)) file_contents.

(** Lines 113 to 119: the report of the chord errors of a pass. *)
Definition error_line (e : chord_error) : str :=
  lit "Line " ++ ljust 3 (str_of_int (line_num e)) ++ lit ": " ++ chord e.

Definition error_report (errors : list chord_error) : list event :=
  [EvPrint ([NEWLINE] ++ lit "Error: invalid chord syntax found");
   EvPrint (lit "----------------------------------")]
  ++ map (fun e => EvPrint (error_line e)) errors
  ++ [EvPrint []].

(** Lines 94 to 129: the body of the loop over the keys.  The arguments
    [path], [font_size] and [keep_tex] of [process_document] do not depend
    on the pass and are left out of the event. *)
Definition key_body (dest_filename : str) (file_contents : list str)
    (key : str) : run unit :=
  match key_pass key file_contents with
  | Raise e => Run [] (Raise e)
  | Ok st =>
      if bool_decide (0 < length (pass_errors st))%nat then
        Run (error_report (pass_errors st)) (Raise (SystemExit 1))
      else
        Run [EvProcessDocument
               (dest_filename ++ lit " (" ++ key ++ lit ")")
               (formatted_lines st)]
          (Ok tt)
  end.

(** Lines 90 to 129 of [main]: [keys] is [args.keys.split(",")] and
    [file_contents] what [read_file_contents] returned. *)
Definition main (keys : list str) (dest_filename : str)
    (file_contents : list str) : run unit :=
  run_bind (validate_keys vars keys)
    (fun _ => for_each_run (key_body dest_filename file_contents) keys).

End Cli.

(** ** An instance of [data_definitions], from the specification *)

Module SpecDefinitions.

(** [pattern.findall(s)]: [pat prev s] is the match that starts at the head
    of [s], [prev] being the character before it, with the number of
    characters it consumes.  Matches are searched from the left and do not
    overlap; each is returned with the offsets where it starts and stops. *)
Fixpoint findall_at {A} (pat : option N -> str -> option (A * nat))
    (pos : nat) (prev : option N) (skip : nat) (s : str)
  : list (nat * nat * A) :=
  match s with
  | [] => []
  | c :: s' =>
      match skip with
      | S k => findall_at pat (S pos) (Some c) k s'
      | O =>
          match pat prev s with
          | Some (a, n) =>
              (pos, pos + n, a) :: findall_at pat (S pos) (Some c) (n - 1) s'
          | None => findall_at pat (S pos) (Some c) 0 s'
          end
      end
  end.

Definition findall_spans {A} (pat : option N -> str -> option (A * nat))
    (s : str) : list (nat * nat * A) :=
  findall_at pat 0 None 0 s.

Definition findall {A} (pat : option N -> str -> option (A * nat))
    (s : str) : list A :=
  map snd (findall_spans pat s).

(** The longest prefix of [s] whose characters satisfy [p], and the rest. *)
Fixpoint span (p : N -> bool) (s : str) : str * str :=
  match s with
  | c :: s' =>
      if p c then let '(a, b) := span p s' in (c :: a, b) else ([], s)
  | [] => ([], [])
  end.

(** [#] or [b]. *)
Definition is_accidental (c : N) : bool := ((c =? 35) || (c =? 98))%N.

(** A digit from 1 to 7. *)
Definition is_degree (c : N) : bool := ((49 <=? c) && (c <=? 55))%N.

(** An optional accidental, taken only in front of a degree. *)
Definition accidental_of (s : str) : str * str :=
  match s with
  | a :: d :: r =>
      if is_accidental a && is_degree d then ([a], d :: r) else ([], s)
  | _ => ([], s)
  end.

(** At most one character of filler. *)
Definition filler_of (s : str) : str * str :=
  match s with
  | c :: r => if isspace c then ([c], r) else ([], s)
  | [] => ([], [])
  end.

Definition at_boundary (prev : option N) : bool :=
  match prev with
  | None => true
  | Some c => isspace c
  end.

(** Modelled from the spec: [CHORD_REGEX1], declared in the absent
    [data_definitions].  A chord occupies five adjacent fields: leading
    filler, an accidental ([#] or [b]) or nothing, the root, a digit from 1
    to 7, the trailing text, which may be empty, and trailing filler.  A
    token that does not have this shape is not a chord: a match starts at
    the start of the line or after filler.  Filler is white space; the
    trailing filler is at most one character, so that the space a longer
    translation consumes is still in the line. *)
Definition chord_pattern (prev : option N) (s : str)
  : option (chord_match * nat) :=
  if at_boundary prev then
    let '(lead, s1) := span isspace s in
    let '(acc, s2) := accidental_of s1 in
    match s2 with
    | d :: s3 =>
        if is_degree d then
          let '(trail, s4) := span (fun c => negb (isspace c)) s3 in
          let '(fill, _) := filler_of s4 in
          let m := ChordMatch lead acc [d] trail fill in
          Some (m, length (item_join m))
        else None
    | [] => None
    end
  else None.

(** A slash and a bass token: a digit from 1 to 7 after an optional
    accidental. *)
Definition bass_of (s : str) : option (str * str) :=
  match s with
  | c :: r =>
      if (c =? SLASH)%N then
        let '(acc, r1) := accidental_of r in
        match r1 with
        | d :: r2 => if is_degree d then Some (c :: acc ++ [d], r2) else None
        | [] => None
        end
      else None
  | [] => None
  end.

(** Modelled from the spec: [CHORD_REGEX2], declared in the absent
    [data_definitions], finds the inversions whose bass looks like a bass
    token (a digit, an optional accidental): [/3], [/b3]. *)
Definition bass_pattern (prev : option N) (s : str) : option (str * nat) :=
  match bass_of s with
  | Some (t, _) => Some (t, length t)
  | None => None
  end.

(** Modelled from the spec: [CHORD_REGEX3], declared in the absent
    [data_definitions], finds the inversions whose bass token is followed by
    more text, as in [1/34], which the specification rejects. *)
Definition long_bass_pattern (prev : option N) (s : str)
  : option (str * nat) :=
  match bass_of s with
  | Some (t, x :: _) => Some (t ++ [x], S (length t))
  | _ => None
  end.

(** The twelve lettered keys, a semitone apart, as the specification lists
    them. *)
Definition LETTERS : list str :=
  map lit
    ["Ab"; "A"; "Bb"; "B"; "C"; "Db"; "D"; "Eb"; "E"; "F"; "Gb"; "G"]%string.

Definition VALID_KEYS : list str := NNS :: LETTERS.

(** The scale-degree tokens with the semitones of each above the key. *)
Definition DEGREES : list (str * nat) :=
  flat_map (fun '(d, semis) =>
              [(lit d, semis);
               (lit "b" ++ lit d, semis + 11);
               (lit "#" ++ lit d, semis + 1)])
    [("1", 0); ("2", 2); ("3", 4); ("4", 5); ("5", 7); ("6", 9);
     ("7", 11)]%string.

Definition letter_table (k : nat) : gmap (list N) (list N) :=
  list_to_map
    (map (fun '(tok, semis) => (tok, nth ((k + semis) mod 12) LETTERS []))
       DEGREES).

Definition nns_table : gmap (list N) (list N) :=
  list_to_map (map (fun '(tok, _) => (tok, tok)) DEGREES).

(** Modelled from the spec: the table [CHORDS], declared in the absent
    [data_definitions]: for each of the twelve lettered keys, the letter
    name of every scale-degree token with or without accidental (in key C,
    [1] is [C] and [b3] is [Eb]); the key [NNS] does not translate. *)
Definition chords_table : gmap (list N) (gmap (list N) (list N)) :=
  list_to_map
    ((NNS, nns_table) :: imap (fun k name => (name, letter_table k)) LETTERS).

(** Modelled from the spec: the absent [data_definitions].  The
    specification gives neither the text of an intro marker, nor the groups
    of the title pattern, nor the set of section labels: this instance is
    for the lines of a chart that carry none of them. *)
Definition definitions : data_definitions := {|
  CHORDS := chords_table;
  INTRO_REGEX := fun _ => [];
  TITLE_REGEX := fun _ => [];
  LABEL_REGEX := fun _ => [];
  CHORD_REGEX1 := findall chord_pattern;
  CHORD_REGEX2 := findall bass_pattern;
  CHORD_REGEX3 := findall long_bass_pattern
|}.

End SpecDefinitions.

(** ** What the loop over one match computes *)

(** The pair [(original_chord, edited_chord)] of one match. *)
Definition chord_pair (vars : data_definitions) (key : str) (m : chord_match)
  : result (str * str) :=
  v ← chord_loop_of vars key 0 [] m;
  Ok (final_original v, edited_chord v).

(** The chord errors of one match, for the line number [num]. *)
Definition chord_errors_of (vars : data_definitions) (key : str) (num : Z)
    (m : chord_match) : result (list chord_error) :=
  v ← chord_loop_of vars key num [] m;
  Ok (chord_errors v).

(** A match with an inversion that fails the test of lines 106 to 110. *)
Definition malformed (vars : data_definitions) (m : chord_match) : bool :=
  not_blank (field3 m)
  && bool_decide (SLASH ∈ field3 m)
  && invalid_inversion vars (field3 m) (nth 1 (split SLASH (field3 m)) []).

(** The number of characters of [text] that are not the triangle. *)
Definition filler_width (text : str) : nat :=
  length (filter (fun c => c ≠ TRIANGLE) text).

(** The superscript of the accidental in front of the root, with its
    filler; nothing for an empty accidental, a space or a newline. *)
Definition superscript_before (text : str) : str :=
  if not_blank text
  then lit "\ts{{\thin" ++ repeat SPACE (filler_width text) ++ lit "}"
       ++ text ++ lit "}"
  else [].

(** The superscript of the text after the root, with its filler. *)
Definition superscript_after (text : str) : str :=
  if not_blank text
  then lit "\ts{" ++ text ++ lit "{\thin"
       ++ repeat SPACE (filler_width text) ++ lit "}}"
  else [].

(** A line after its intro, title and label markup. *)
Definition marked (vars : data_definitions) (line : str) : str :=
  format_labels vars (format_title vars (format_intro vars line)).

(** The document event of a key whose pass has no chord error. *)
Definition document fl (dest_filename : str) (file_contents : list str)
    (key : str) : list event :=
  match key_pass fl key file_contents with
  | Ok st =>
      [EvProcessDocument (dest_filename ++ lit " (" ++ key ++ lit ")")
         (formatted_lines st)]
  | Raise _ => []
  end.


(** ** musiccharts/read_file.py and the start of [main] *)

Definition COMMA : N := 44.

(** [s.endswith(c)] for one character. *)
Definition endswith (s : str) (c : N) : bool :=
  match last s with
  | Some x => N.eqb x c
  | None => false
  end.

(** [os.path.join(a, b)] with the POSIX separator. *)
Definition path_join (a b : str) : str :=
  if startswith b [SLASH] then b
  else if bool_decide (a = []) || endswith a SLASH then a ++ b
  else a ++ [SLASH] ++ b.

(** What [read_file_contents] asks of the operating system:
    [os.path.isfile], [os.getcwd], and [open(path, "r")] with the lines that
    iterating over the file gives, [None] standing for
    [FileNotFoundError].  Other failures of [open] are not modelled. *)
Record file_system : Type := FileSystem {
  isfile : str -> bool;
  getcwd : str;
  open_read : str -> option (list str)
}.

(** Lines 27 and 28 of [read_file_contents]: the path that is opened. *)
Definition opened_path (fs : file_system) (filename : str) : str :=
  if isfile fs filename then filename else path_join (getcwd fs) filename.

(** [read_file_contents(filename)]. *)
Definition read_file_contents (fs : file_system) (filename : str)
  : run (list str) :=
  let filename := opened_path fs filename in
  match open_read fs filename with
  | None =>
      Run [EvPrint (lit "File not found: " ++ filename ++ [NEWLINE]
                    ++ lit "Exiting...")]
        (Raise (SystemExit 0))
  | Some file_object =>
      Run [] (Ok (fold_left (fun file_contents line =>
                               file_contents ++ [rstrip line])
                    file_object []))
  end.

(** The attributes of [args] that [main] reads after parsing, but for
    [font_size] and [keep_tex], which only go to [process_document]:
    [dest_filename] is [None] without the option [-n]. *)
Record arguments : Type := Args {
  arg_input : list str;
  arg_keys : str;
  arg_dest_filename : option str
}.

Section Main.

Variable vars : data_definitions.
Variable fs : file_system.

(** The function that the name [format_line] stands for in [main]. *)
Variable format_line_call : dict -> result dict.

(** The text of [parser.print_help()]. *)
Variable help_text : str.

(** The substitution [re.sub] of line 86, which takes the name of the
    document from the name of the source file. *)
Variable default_name : str -> str.

(** Line 89: [args.keys.split(",")]. *)
Definition keys_of_argument (arg : str) : list str := split COMMA arg.

(** Lines 83 to 86: a destination name that is [None] or empty is
    replaced. *)
Definition destination (args : arguments) (src_filename : str) : str :=
  match arg_dest_filename args with
  | Some (c :: name) => c :: name
  | _ => default_name src_filename
  end.

(** Lines 71 to 129 of [main], from the parsed arguments. *)
Definition cli_main (args : arguments) : run unit :=
  if bool_decide (1 < length (arg_input args))%nat then
    Run [EvPrint ([NEWLINE]
                  ++ lit "Error: more than one source file provided "
                  ++ lit "for processing!"
                  ++ [NEWLINE])]
      (Raise (SystemExit 1))
  else
    match arg_input args with
    | [] => Run [EvPrint help_text] (Raise (SystemExit 1))
    | src_filename :: _ =>
        run_bind (read_file_contents fs src_filename)
          (fun file_contents =>
             main vars format_line_call (keys_of_argument (arg_keys args))
               (destination args src_filename) file_contents)
    end.

End Main.

(** ** Python regular expressions, as far as line 86 of [cli.py] needs *)

Module Re.

(** Patterns: one character of a class, a sequence, a greedy repetition
    [r*] and a numbered group. *)
Inductive regex : Type :=
  | Chr (p : N -> bool)
  | Seq (r1 r2 : regex)
  | Star (r : regex)
  | Group (n : nat) (r : regex).

(** The text of the groups matched so far, the latest first. *)
Abbreviation groups := (list (nat * list N)).

(** [m.group(n)] in a replacement template: empty for a group that took
    no part in the match. *)
Fixpoint group (n : nat) (g : groups) : str :=
  match g with
  | [] => []
  | (k, text) :: g' => if Nat.eqb k n then text else group n g'
  end.

(** The ways to repeat [step] from [s], in the order a backtracking matcher
    tries them: one more repetition first, the longest first, then none.  A
    repetition that consumes nothing is not taken; [n] bounds the number of
    repetitions and is the length of the text. *)
Fixpoint star_matches (step : str -> groups -> list (str * groups))
    (n : nat) (s : str) (g : groups) : list (str * groups) :=
  match n with
  | 0 => [(s, g)]
  | S n' =>
      flat_map (fun x => if bool_decide (length (fst x) < length s)%nat
                         then star_matches step n' (fst x) (snd x) else [])
        (step s g)
      ++ [(s, g)]
  end.

(** The ways [r] matches at the start of [s], in the order a backtracking
    matcher tries them: each with the rest of [s] and the groups. *)
Fixpoint matches (r : regex) (s : str) (g : groups) : list (str * groups) :=
  match r with
  | Chr p =>
      match s with
      | c :: s' => if p c then [(s', g)] else []
      | [] => []
      end
  | Seq r1 r2 =>
      flat_map (fun x => matches r2 (fst x) (snd x)) (matches r1 s g)
  | Star r1 => star_matches (matches r1) (length s) s g
  | Group n r1 =>
      map (fun x => (fst x, (n, take (length s - length (fst x)) s) :: snd x))
        (matches r1 s g)
  end.

(** [re.sub(r, template, s)] for the template that is the group [k]:
    matches are searched from the left and do not overlap; [skip] counts the
    characters of the last match that are still to be dropped. *)
Fixpoint sub_from (r : regex) (k : nat) (skip : nat) (s : str) : str :=
  match s with
  | [] =>
      match skip, head (matches r [] []) with
      | 0, Some (_, g) => group k g
      | _, _ => []
      end
  | c :: s' =>
      match skip with
      | S n => sub_from r k n s'
      | 0 =>
          match head (matches r s []) with
          | Some (rest, g) =>
              let consumed := (length s - length rest)%nat in
              if Nat.eqb consumed 0
              then group k g ++ c :: sub_from r k 0 s'
              else group k g ++ sub_from r k (consumed - 1) s'
          | None => c :: sub_from r k 0 s'
          end
      end
  end.

Definition sub (r : regex) (k : nat) (s : str) : str := sub_from r k 0 s.

End Re.

Definition DOT : N := 46.

(** The classes of the pattern of line 86: [.] is any character but the
    newline. *)
Definition any_char (c : N) : bool := negb (N.eqb c NEWLINE).
Definition is_slash (c : N) : bool := N.eqb c SLASH.
Definition is_dot (c : N) : bool := N.eqb c DOT.
Definition not_dot (c : N) : bool := negb (N.eqb c DOT).

(** The parts of the pattern: any characters; group 1, any characters and
    a slash; group 2, characters that are not dots; group 3, a dot and any
    characters. *)
Definition ANY : Re.regex := Re.Star (Re.Chr any_char).
Definition DIRECTORY : Re.regex :=
  Re.Group 1 (Re.Seq ANY (Re.Chr is_slash)).
Definition STEM : Re.regex := Re.Group 2 (Re.Star (Re.Chr not_dot)).
Definition EXTENSION : Re.regex := Re.Group 3 (Re.Seq (Re.Chr is_dot) ANY).

(** The pattern of line 86: group 1 any number of times, group 2,
    group 3. *)
Definition NAME_PATTERN : Re.regex :=
  Re.Seq (Re.Star DIRECTORY) (Re.Seq STEM EXTENSION).

(** Line 86: the name of the documents when the option [-n] is missing or
    empty, group 2 put for every match of the pattern in the name of the
    source file. *)
Definition default_name_of (src_filename : str) : str :=
  Re.sub NAME_PATTERN 2 src_filename.

(** The rests that a greedy repetition of one character of class [p]
    leaves of [s], the shortest rest first. *)
Fixpoint greedy (p : N -> bool) (s : str) : list str :=
  match s with
  | [] => [[]]
  | c :: s' => if p c then greedy p s' ++ [c :: s'] else [c :: s']
  end.


(** A file system with one chart of two lines, [/home/band/song.txt], and
    [/home/band] as working directory. *)
Definition example_fs : file_system :=
  FileSystem (fun _ => false) (lit "/home/band")
    (fun path =>
       if bool_decide (path = lit "/home/band/song.txt")
       then Some [lit "1   4  " ++ [NEWLINE]; lit "grace" ++ [NEWLINE]]
       else None).

(** * Properties *)

Import SpecDefinitions.

Opaque lit.

(** ** Key validation *)

Lemma bad_keys_from vars (keys acc : list str) :
  fold_left
    (fun bad key =>
       if bool_decide (key ∈ dom (CHORDS vars)) then bad else bad ++ [key])
    keys acc
  = acc ++ filter (fun k => k ∉ dom (CHORDS vars)) keys.
Proof.
  revert acc. induction keys as [|k keys IH]; intros acc; simpl.
  - by rewrite app_nil_r.
  - rewrite IH, filter_cons. case_bool_decide; case_decide; try done.
    by rewrite <- app_assoc.
Qed.

Lemma bad_keys_filter vars (keys : list str) :
  bad_keys vars keys = filter (fun k => k ∉ dom (CHORDS vars)) keys.
Proof. unfold bad_keys. by rewrite bad_keys_from. Qed.

Lemma bad_keys_nil vars (keys : list str) :
  bad_keys vars keys = [] <-> Forall (fun k => k ∈ dom (CHORDS vars)) keys.
Proof.
  rewrite bad_keys_filter. induction keys as [|k keys IH]; simpl.
  - split; [constructor | done].
  - rewrite filter_cons, Forall_cons. case_decide.
    + split; [done | tauto].
    + rewrite IH. tauto.
Qed.

(** What [validate_keys] does, by cases on the keys being all in
    [CHORDS]. *)
Lemma validate_keys_outcome vars (keys : list str) :
  validate_keys vars keys =
  if decide (Forall (fun k => k ∈ dom (CHORDS vars)) keys)
  then Run [] (Ok tt)
  else Run [EvPrint ([NEWLINE] ++ lit "Error - invalid keys found: "
                     ++ join (lit ",")
                          (filter (fun k => k ∉ dom (CHORDS vars)) keys)
                     ++ [NEWLINE])]
         (Raise (SystemExit 1)).
Proof.
  unfold validate_keys. rewrite <- bad_keys_filter.
  pose proof (bad_keys_nil vars keys) as Hnil.
  destruct (bad_keys vars keys) as [|b bad] eqn:Hbad; simpl.
  - rewrite decide_True; [done | by apply Hnil].
  - rewrite decide_False; [done |]. intros HF. by apply Hnil in HF.
Qed.

(** C10. [validate_keys] goes through the whole list: [bad_keys] is the list
    of all the keys that are not in [CHORDS], in their order.  When there is
    none it returns without printing; otherwise it prints one message with
    all of them, joined by commas, and exits with status 1. *)
Theorem validate_keys_reports_every_invalid_key vars (keys : list str) :
  bad_keys vars keys = filter (fun k => k ∉ dom (CHORDS vars)) keys
  /\ validate_keys vars keys =
     if decide (Forall (fun k => k ∈ dom (CHORDS vars)) keys)
     then Run [] (Ok tt)
     else Run [EvPrint ([NEWLINE] ++ lit "Error - invalid keys found: "
                        ++ join (lit ",")
                             (filter (fun k => k ∉ dom (CHORDS vars)) keys)
                        ++ [NEWLINE])]
            (Raise (SystemExit 1)).
Proof.
  split; [apply bad_keys_filter |].
  unfold validate_keys. rewrite <- bad_keys_filter.
  pose proof (bad_keys_nil vars keys) as Hnil.
  destruct (bad_keys vars keys) as [|b bad] eqn:Hbad; simpl.
  - rewrite decide_True; [done | by apply Hnil].
  - rewrite decide_False; [done |]. intros HF. by apply Hnil in HF.
Qed.

(** C8. When the keys of [CHORDS] are the thirteen keys of the
    specification: a list with a key that is not one of them ends [main] at
    [validate_keys], with exit status 1 and the message as only event,
    whatever the formatter is, which is never called; a list of recognized
    keys passes validation without output and [main] is the loop over the
    keys. *)
Theorem key_validation_is_fail_fast vars (keys : list str) dest
    (file_contents : list str) :
  dom (CHORDS vars) = list_to_set VALID_KEYS ->
  (Exists (fun k => k ∉ VALID_KEYS) keys ->
   exists text, forall fl,
     main vars fl keys dest file_contents
     = Run [EvPrint text] (Raise (SystemExit 1)))
  /\ (Forall (fun k => k ∈ VALID_KEYS) keys ->
      validate_keys vars keys = Run [] (Ok tt)
      /\ forall fl,
           main vars fl keys dest file_contents
           = for_each_run (key_body fl dest file_contents) keys).
Proof.
  intros Hdom.
  pose proof (validate_keys_outcome vars keys) as Hv.
  split.
  - intros Hex. eexists. intros fl. unfold main. rewrite Hv.
    rewrite decide_False; [reflexivity |].
    intros HF. apply Exists_exists in Hex as (k & Hk & Hbad).
    rewrite Forall_forall in HF. specialize (HF k Hk).
    rewrite Hdom in HF. apply Hbad. by apply elem_of_list_to_set in HF.
  - intros HF.
    assert (Forall (fun k => k ∈ dom (CHORDS vars)) keys) as HF'.
    { eapply Forall_impl; [exact HF |]. intros k Hk. rewrite Hdom.
      by apply elem_of_list_to_set. }
    rewrite Hv, decide_True by done. split; [done |].
    intros fl. unfold main. rewrite Hv, decide_True by done.
    unfold run_bind; simpl. by destruct (for_each_run _ keys).
Qed.

Lemma key_validation_is_fail_fast_witness :
  (exists text, forall fl,
     main definitions fl [lit "C"; lit "H"] (lit "song")
       [lit "1  Amazing grace"]
     = Run [EvPrint text] (Raise (SystemExit 1)))
  /\ validate_keys definitions [lit "NNS"; lit "C"] = Run [] (Ok tt).
Proof.
  split.
  - apply (key_validation_is_fail_fast definitions [lit "C"; lit "H"]
             (lit "song") [lit "1  Amazing grace"]).
    + vm_compute. reflexivity.
    + apply Exists_cons_tl, Exists_cons_hd. intros H.
      apply list_elem_of_In in H. vm_compute in H. intuition discriminate.
  - apply (key_validation_is_fail_fast definitions [lit "NNS"; lit "C"]
             (lit "song") [lit "1  Amazing grace"]).
    + vm_compute. reflexivity.
    + repeat constructor.
Defined.

(** ** The loop over one match *)

(** The five steps of the loop over one match, unfolded. *)
Ltac chord_loop :=
  unfold chord_pair, chord_errors_of, chord_body, chord_loop_of, chord_step,
    translate, getitem, index, superscript_post, add_translation, add_edited,
    item_join, item_set3 in *;
  unfold mbind, result_bind, mret, result_ret in *; simpl in *.

Ltac chord_cases :=
  chord_loop; repeat (case_match; simplify_eq/=; try done).

Lemma original_chord_joined vars key num m errs v :
  chord_loop_of vars key num errs m = Ok v ->
  original_chord v
  = field0 m ++ field1 m ++ field2 m ++ field3 m ++ field4 m.
Proof.
  intros H. destruct m as [m0 m1 m2 m3 m4]. chord_cases.
  all: by rewrite <- ?app_assoc.
Qed.

(** ** The chord tokenizer of the specification *)

Lemma span_app p (s a b : str) : span p s = (a, b) -> s = a ++ b.
Proof.
  revert a b. induction s as [|c s IH]; intros a b H; simpl in H.
  - by simplify_eq.
  - destruct (p c); [| by simplify_eq].
    destruct (span p s) as [a' b'] eqn:E. simplify_eq. simpl.
    f_equal. by apply IH.
Qed.

Lemma accidental_of_app (s a b : str) : accidental_of s = (a, b) -> s = a ++ b.
Proof.
  unfold accidental_of. intros H. repeat case_match; by simplify_eq.
Qed.

Lemma filler_of_app (s a b : str) : filler_of s = (a, b) -> s = a ++ b.
Proof.
  unfold filler_of. intros H. repeat case_match; by simplify_eq.
Qed.

(** A match of the chord pattern is a prefix of the text it is tried on,
    cut into the five fields. *)
Lemma chord_pattern_prefix prev (s : str) m n :
  chord_pattern prev s = Some (m, n) ->
  n = length (item_join m) /\ take n s = item_join m.
Proof.
  unfold chord_pattern. intros H.
  destruct (at_boundary prev); [| done].
  destruct (span isspace s) as [lead s1] eqn:E1.
  destruct (accidental_of s1) as [acc s2] eqn:E2.
  destruct s2 as [|d s3]; [done |].
  destruct (is_degree d); [| done].
  destruct (span _ s3) as [trail s4] eqn:E3.
  destruct (filler_of s4) as [fill s5] eqn:E4.
  simplify_eq. split; [done |].
  apply span_app in E1, E3. apply accidental_of_app in E2.
  apply filler_of_app in E4. subst.
  unfold item_join; simpl.
  replace (lead ++ acc ++ d :: trail ++ fill ++ s5)
    with ((lead ++ acc ++ [d] ++ trail ++ fill) ++ s5)
    by (by rewrite <- !app_assoc).
  by rewrite take_app_length.
Qed.

Lemma findall_at_slice {A} (pat : option N -> str -> option (A * nat))
    (content : A -> str) :
  (forall prev s a n, pat prev s = Some (a, n) -> take n s = content a) ->
  forall (s pre : str) prev skip start stop a,
    (start, stop, a) ∈ findall_at pat (length pre) prev skip s ->
    take (stop - start) (drop start (pre ++ s)) = content a.
Proof.
  intros Hpat s.
  induction s as [|c s IH]; intros pre prev skip start stop a Hin; simpl in Hin.
  - by apply elem_of_nil in Hin.
  - assert (forall k, (start, stop, a) ∈
                findall_at pat (S (length pre)) (Some c) k s ->
              take (stop - start) (drop start (pre ++ c :: s)) = content a)
      as Hnext.
    { intros k Hk. specialize (IH (pre ++ [c]) (Some c) k start stop a).
      rewrite length_app, Nat.add_1_r, <- app_assoc in IH. by apply IH. }
    destruct skip as [|k]; [| by eapply Hnext].
    destruct (pat prev (c :: s)) as [[a' n]|] eqn:E; [| by eapply Hnext].
    apply elem_of_cons in Hin as [Heq | Hin]; [| by eapply Hnext].
    simplify_eq. rewrite drop_app_length.
    replace (length pre + n - length pre) with n by lia.
    by eapply Hpat.
Qed.

(** C6. On the tokenizer of the specification: every match found in a line
    without its parentheses is one of the matches [format_line] goes
    through, the slice of that line between the offsets where the match
    starts and stops is its five fields one after the other, and that is the
    text the loop of [format_line] collects in [original_chord]. *)
Theorem chord_fields_rebuild_match (line : str) (start stop : nat) m :
  (start, stop, m)
    ∈ findall_spans chord_pattern
        (replace (replace line [LPAREN] []) [RPAREN] []) ->
  m ∈ chord_matches definitions line
  /\ take (stop - start)
       (drop start (replace (replace line [LPAREN] []) [RPAREN] []))
     = field0 m ++ field1 m ++ field2 m ++ field3 m ++ field4 m
  /\ forall key num errs v,
       chord_loop_of definitions key num errs m = Ok v ->
       original_chord v
       = take (stop - start)
           (drop start (replace (replace line [LPAREN] []) [RPAREN] [])).
Proof.
  intros Hin.
  assert (take (stop - start)
            (drop start (replace (replace line [LPAREN] []) [RPAREN] []))
          = item_join m) as Hslice.
  { eapply (findall_at_slice chord_pattern item_join) with (pre := []).
    - intros prev s a n H. by apply chord_pattern_prefix in H as [_ ?].
    - exact Hin. }
  split; [| split].
  - unfold chord_matches; simpl. unfold findall.
    apply list_elem_of_fmap. by exists (start, stop, m).
  - by rewrite Hslice.
  - intros key num errs v Hv. rewrite Hslice.
    by rewrite (original_chord_joined _ _ _ _ _ _ Hv).
Qed.

Lemma chord_fields_rebuild_match_witness :
  take (10 - 2)
    (drop 2
       (replace (replace (lit "(1) b3sus/5 grace") [LPAREN] []) [RPAREN] []))
  = [] ++ lit "b" ++ lit "3" ++ lit "sus/5" ++ lit " ".
Proof.
  apply (chord_fields_rebuild_match (lit "(1) b3sus/5 grace") 2 10
           (ChordMatch [] (lit "b") (lit "3") (lit "sus/5") (lit " "))).
  vm_compute. apply list_elem_of_further, list_elem_of_here.
Defined.

(** ** The loop over the matches of a line *)

(** The body of the loop only adds to its two lists: the pair of the match,
    which depends on the key and on the five fields alone, and the errors of
    the match. *)
Lemma chord_body_outcome vars key num st m :
  chord_body vars key num st m
  = match chord_pair vars key m, chord_errors_of vars key num m with
    | Ok c, Ok es => Ok (add_once (fst st) c, snd st ++ es)
    | Raise e, _ => Raise e
    | _, Raise e => Raise e
    end.
Proof.
  destruct m as [m0 m1 m2 m3 m4], st as [cs es].
  chord_loop. repeat (case_match; simplify_eq/=; try done).
  all: by rewrite ?app_nil_r.
Qed.

Lemma chord_errors_of_pair vars key num m c :
  chord_pair vars key m = Ok c ->
  chord_errors_of vars key num m
  = Ok (if malformed vars m then [ChordError (item_join m) num] else []).
Proof.
  destruct m as [m0 m1 m2 m3 m4]. unfold malformed. intros H.
  rewrite nth_lookup.
  chord_loop. repeat (case_match; simplify_eq/=; try done).
Qed.

Lemma add_once_NoDup chords pair : NoDup chords -> NoDup (add_once chords pair).
Proof.
  unfold add_once. intros H. case_bool_decide; [done |].
  apply NoDup_app. split_and!; [done | | apply NoDup_singleton].
  intros x Hx Hx'. apply list_elem_of_singleton in Hx'. by subst.
Qed.

Lemma elem_of_add_once chords pair c :
  c ∈ add_once chords pair <-> c ∈ chords \/ c = pair.
Proof.
  unfold add_once. case_bool_decide.
  - split; [by left | intros [?| ->]; done].
  - rewrite elem_of_app, list_elem_of_singleton. tauto.
Qed.

Lemma chords_loop vars key num ms : forall chords errs,
  Forall (fun m => exists c, chord_pair vars key m = Ok c) ms ->
  exists chords' errs',
    for_each (chord_body vars key num) (chords, errs) ms = Ok (chords', errs')
    /\ (NoDup chords -> NoDup chords')
    /\ (forall c, c ∈ chords' <->
          c ∈ chords \/ exists m, m ∈ ms /\ chord_pair vars key m = Ok c)
    /\ errs' = errs ++ flat_map
                 (fun m => if malformed vars m
                           then [ChordError (item_join m) num] else []) ms.
Proof.
  induction ms as [|m ms IH]; intros chords errs HF.
  - exists chords, errs. split_and!; [done | done | | by rewrite app_nil_r].
    intros c. split; [by left |]. intros [? | (m & Hm & _)]; [done |].
    by apply elem_of_nil in Hm.
  - apply Forall_cons in HF as [[c Hc] HF]. simpl.
    rewrite chord_body_outcome, Hc, (chord_errors_of_pair _ _ _ _ _ Hc).
    unfold mbind, result_bind; simpl.
    destruct (IH (add_once chords c)
                (errs ++ (if malformed vars m
                          then [ChordError (item_join m) num] else [])) HF)
      as (chords' & errs' & Hloop & Hnd & Hin & Herr).
    exists chords', errs'. split_and!; [done | | | ].
    + intros H. by apply Hnd, add_once_NoDup.
    + intros c'. rewrite Hin, elem_of_add_once. split.
      * intros [[? | ->] | (m' & Hm' & Hc')]; [by left | |].
        -- right. exists m. split; [apply list_elem_of_here | done].
        -- right. exists m'. split; [by apply list_elem_of_further | done].
      * intros [? | (m' & Hm' & Hc')]; [by left; left |].
        apply elem_of_cons in Hm' as [-> | Hm'].
        -- left; right. congruence.
        -- right. by exists m'.
    + by rewrite Herr, <- app_assoc.
Qed.

(** C7. When the table has the tokens of the matches of a line, the chord
    loop of [format_line] ends; the pair it computes for a match depends on
    the key and on the five fields alone, not on the line number nor on the
    matches before it, so that two occurrences of the same chord yield the
    same pair; the list [chords] holds the pairs of the matches, each once,
    and [format_line] substitutes each pair of that list once. *)
Theorem chords_are_deduplicated vars (line : str) (num : Z) (key : str) :
  Forall (fun m => exists c, chord_pair vars key m = Ok c)
    (chord_matches vars (marked vars line)) ->
  exists chords errs,
    format_line vars line num key
    = Ok [(lit "edits", VStr (substitute (marked vars line) chords));
          (lit "errors", VErrors errs)]
    /\ NoDup chords
    /\ (forall c, c ∈ chords <->
          exists m, m ∈ chord_matches vars (marked vars line)
                    /\ chord_pair vars key m = Ok c)
    /\ (forall m st, m ∈ chord_matches vars (marked vars line) ->
          exists c es,
            chord_pair vars key m = Ok c
            /\ chord_body vars key num st m
               = Ok (add_once (fst st) c, snd st ++ es)).
Proof.
  intros HF.
  destruct (chords_loop vars key num _ [] [] HF)
    as (chords & errs & Hloop & Hnd & Hin & _).
  exists chords, errs. split_and!.
  - unfold format_line. fold (marked vars line). by rewrite Hloop.
  - apply Hnd, NoDup_nil_2.
  - intros c. rewrite Hin. split; [| by right].
    intros [H | H]; [by apply elem_of_nil in H | done].
  - intros m st Hm. rewrite Forall_forall in HF.
    destruct (HF m Hm) as [c Hc]. eexists c, _. split; [done |].
    by rewrite chord_body_outcome, Hc, (chord_errors_of_pair _ _ _ _ _ Hc).
Qed.

Lemma chords_are_deduplicated_witness :
  exists chords errs,
    format_line definitions (lit "1 1 grace") 0 (lit "Ab")
    = Ok [(lit "edits", VStr (substitute (lit "1 1 grace") chords));
          (lit "errors", VErrors errs)]
    /\ NoDup chords.
Proof.
  destruct (chords_are_deduplicated definitions (lit "1 1 grace") 0 (lit "Ab"))
    as (chords & errs & H1 & H2 & _).
  - vm_compute. repeat constructor; eexists; reflexivity.
  - exists chords, errs. split; [exact H1 | exact H2].
Defined.

(** ** Superscripts in NNS *)

(** Replacing a character by nothing filters it out. *)
Lemma replace_char_nil (c : N) (s : str) :
  replace s [c] [] = filter (fun x => x ≠ c) s.
Proof.
  unfold replace. induction s as [|x s IH]; simpl; [done |].
  unfold startswith; simpl. rewrite filter_cons.
  destruct (N.eqb_spec c x) as [-> | Hne].
  - rewrite decide_False by (intros H; by apply H). simpl. exact IH.
  - rewrite decide_True by congruence. by rewrite IH.
Qed.

Lemma split_no_sep (c : N) (s : str) : c ∉ s -> split c s = [s].
Proof.
  induction s as [|x s IH]; intros H; simpl; [done |].
  apply not_elem_of_cons in H as [Hne Hs].
  destruct (N.eqb_spec x c) as [-> | _]; [done |]. by rewrite IH.
Qed.

Lemma split_at_sep (c : N) (head rest : str) :
  c ∉ head -> split c (head ++ c :: rest) = head :: split c rest.
Proof.
  induction head as [|x head IH]; intros H; simpl.
  - by rewrite N.eqb_refl.
  - apply not_elem_of_cons in H as [Hne Hs].
    destruct (N.eqb_spec x c) as [-> | _]; [done |]. by rewrite IH.
Qed.

Lemma count_no_sep (c : N) (s : str) : c ∉ s -> count c s = 0.
Proof.
  unfold count. induction s as [|x s IH]; intros H; [done |].
  apply not_elem_of_cons in H as [Hne Hs]. rewrite filter_cons.
  rewrite decide_False by congruence. by apply IH.
Qed.

(** C9. In NNS, for a match whose root is in the table and whose trailing
    text has no inversion, or a valid inversion whose bass the table of NNS
    leaves as it is: the replacement text is the leading filler, the
    superscript of the accidental, the root, the superscript of the trailing
    text and the trailing filler, and the filler of each superscript has as
    many spaces as its text has characters other than the triangle (the
    partial-space adjustment is always zero).  A field that is empty, a
    space or a newline gets no superscript. *)
Theorem nns_filler_excludes_triangle vars m (root : str) :
  translate vars NNS (field2 m) = Ok root ->
  (SLASH ∉ field3 m
   \/ exists head bass,
        field3 m = head ++ [SLASH] ++ bass
        /\ (SLASH ∉ head) /\ (SLASH ∉ bass)
        /\ invalid_inversion vars (field3 m) bass = false
        /\ translate vars NNS bass = Ok bass) ->
  exists original,
    chord_pair vars NNS m
    = Ok (original,
          field0 m ++ superscript_before (field1 m) ++ root
          ++ superscript_after (field3 m) ++ field4 m).
Proof.
  destruct m as [m0 m1 m2 m3 m4]; simpl. intros Hroot Hinv.
  unfold superscript_before, superscript_after, filler_width.
  rewrite <- !replace_char_nil.
  unfold chord_pair, chord_loop_of; simpl.
  unfold chord_step; simpl.
  unfold mbind, result_bind, add_edited, add_translation, superscript_post.
  rewrite !(bool_decide_eq_true_2 (NNS = NNS)) by done.
  assert (forall t : str,
            spaces (Z.of_nat (length t) - 0) = repeat SPACE (length t)) as Hsp.
  { intros t. unfold spaces. by rewrite Z.sub_0_r, Nat2Z.id. }
  assert (forall t : str,
            spaces (Z.of_nat (length t)) = repeat SPACE (length t)) as Hsp'.
  { intros t. unfold spaces. by rewrite Nat2Z.id. }
  destruct (not_blank m1) eqn:E1; simpl; rewrite Hroot; simpl;
    (destruct (not_blank m3) eqn:E3; simpl;
     [ destruct Hinv as [Hno | (head & bass & -> & Hh & Hb & Hok & Htr)];
       [ rewrite bool_decide_eq_false_2 by done; simpl
       | rewrite bool_decide_eq_true_2
           by (apply elem_of_app; right; apply list_elem_of_here);
         rewrite split_at_sep, split_no_sep by done; simpl;
         rewrite Hok, Htr; simpl ]
     | ]);
    rewrite ?Hsp, ?Hsp'; eexists; f_equal; f_equal;
    rewrite <- ?app_assoc; try reflexivity.
Qed.

Lemma nns_filler_excludes_triangle_witness :
  exists original,
    chord_pair definitions NNS
      (ChordMatch [] (lit "b") (lit "7") (TRIANGLE :: lit "7") [SPACE])
    = Ok (original,
          lit "\ts{{\thin }b}7\ts{" ++ [TRIANGLE] ++ lit "7{\thin }} ").
Proof.
  apply (nns_filler_excludes_triangle definitions
           (ChordMatch [] (lit "b") (lit "7") (TRIANGLE :: lit "7") [SPACE])
           (lit "7")).
  - vm_compute. reflexivity.
  - left. eapply bool_decide_unpack. vm_compute. exact I.
Defined.

(** ** The pass of one key *)


Lemma chord_body_pair vars key num st m st' :
  chord_body vars key num st m = Ok st' ->
  exists c, chord_pair vars key m = Ok c.
Proof.
  rewrite chord_body_outcome. destruct (chord_pair vars key m); [eauto | done].
Qed.

Lemma chords_loop_pairs vars key num ms : forall st st',
  for_each (chord_body vars key num) st ms = Ok st' ->
  Forall (fun m => exists c, chord_pair vars key m = Ok c) ms.
Proof.
  induction ms as [|m ms IH]; intros st st' H; [constructor |].
  simpl in H. destruct (chord_body vars key num st m) as [st1|] eqn:E; [| done].
  constructor; [by eapply chord_body_pair | by eapply IH].
Qed.










(** ** The loop over the keys *)

Lemma for_each_run_app {A} (body : A -> run unit) (l1 l2 : list A) :
  for_each_run body (l1 ++ l2)
  = run_bind (for_each_run body l1) (fun _ => for_each_run body l2).
Proof.
  induction l1 as [|a l1 IH]; simpl.
  - unfold run_bind; simpl. by destruct (for_each_run body l2).
  - rewrite IH. unfold run_bind; simpl.
    destruct (body a) as [o [[]|e]]; simpl; [| done].
    destruct (for_each_run body l1) as [o1 [[]|e1]]; simpl;
      by rewrite ?app_assoc.
Qed.

Lemma clean_keys_make_documents fl dest (file_contents : list str) keys :
  Forall (fun k => exists st, key_pass fl k file_contents = Ok st
                              /\ pass_errors st = []) keys ->
  for_each_run (key_body fl dest file_contents) keys
  = Run (flat_map (document fl dest file_contents) keys) (Ok tt).
Proof.
  induction 1 as [|k keys (st & Hst & Hnil) _ IH]; simpl; [done |].
  rewrite IH. unfold key_body, document, run_bind. rewrite Hst, Hnil. simpl.
  done.
Qed.




(** ** Where the code departs from the claims *)

(** C1.  The call of [main], with the keyword [next_line_after_intro], is a
    [TypeError]: [format_line] declares no such parameter.  The dict that
    [format_line] returns has the keys [edits] and [errors] only, so that
    [results.get("next_line_after_intro")] is [None].  On a chart of one
    line [main] ends with that [TypeError] at its first call. *)
Theorem format_line_has_no_intro_flag vars (line : str) (num : Z) (key : str)
    (flag : pyval) :
  format_line_keywords vars (call_keywords line num key flag) = Raise TypeError
  /\ match format_line vars line num key with
     | Ok results =>
         map fst results = [lit "edits"; lit "errors"]
         /\ dict_get results (lit "next_line_after_intro") = VNone
     | Raise _ => True
     end
  /\ main definitions (format_line_keywords definitions) [NNS] (lit "song")
       [lit "1  Amazing grace"]
     = Run [] (Raise TypeError).
Proof.
  split_and!; [reflexivity | | vm_compute; reflexivity].
  unfold format_line. destruct (for_each _ _ _); simpl; [| done].
  split; reflexivity.
Qed.

Lemma split_with_sep (c : N) (s : str) :
  c ∈ s -> exists h b t, split c s = h :: b :: t.
Proof.
  induction s as [|x s IH]; intros H; [by apply elem_of_nil in H |].
  simpl. destruct (N.eqb_spec x c) as [-> | Hne].
  - destruct s as [|y s]; simpl; [by eexists _, _, _ |].
    destruct (N.eqb y c); [by eexists _, _, _ |].
    destruct (split c s); by eexists _, _, _.
  - apply elem_of_cons in H as [? | H]; [done |].
    destruct (IH H) as (h & b & t & ->). by eexists _, _, _.
Qed.

(** Whatever the table and the patterns are: in a lettered key, the pair of
    a match with a malformed inversion is built all the same, from the
    translated root between the two fillers. *)
Lemma malformed_chord_pair vars key m (root : str) :
  key <> NNS ->
  malformed vars m = true ->
  translate vars key (field1 m ++ field2 m) = Ok root ->
  chord_pair vars key m
  = Ok (item_join m ++ (if bool_decide (1 < length root) then [SPACE] else []),
        field0 m ++ root ++ field4 m).
Proof.
  destruct m as [m0 m1 m2 m3 m4]. unfold malformed, chord_pair, chord_loop_of.
  simpl. intros Hkey Hbad Hroot. rewrite nth_lookup in Hbad.
  apply andb_prop in Hbad as [Hbad Hinv]. apply andb_prop in Hbad as [Hnb Hsl].
  unfold chord_step; simpl. rewrite (bool_decide_eq_false_2 _ Hkey), Hroot.
  unfold mbind, result_bind; simpl. rewrite Hnb, Hsl.
  unfold index. destruct (split SLASH m3 !! 1) as [bass|] eqn:E.
  - simpl in Hinv. rewrite Hinv. simpl. unfold final_original, item_join; simpl.
    destruct (bool_decide (1 < length root)); simpl;
      by rewrite <- ?app_assoc, ?app_nil_r.
  - apply bool_decide_eq_true in Hsl.
    destruct (split_with_sep _ _ Hsl) as (h & b & t & Hs).
    by rewrite Hs in E.
Qed.

(** Whatever the table and the patterns are: in a lettered key, a root whose
    translation has two characters takes a space from the line, also when
    the root had two characters itself. *)
Lemma long_root_takes_a_space vars key m (root : str) :
  key <> NNS ->
  not_blank (field3 m) = false ->
  translate vars key (field1 m ++ field2 m) = Ok root ->
  (1 < length root)%nat ->
  chord_pair vars key m
  = Ok (item_join m ++ [SPACE], field0 m ++ root ++ field4 m).
Proof.
  destruct m as [m0 m1 m2 m3 m4]. unfold chord_pair, chord_loop_of.
  simpl. intros Hkey Hnb Hroot Hlen.
  unfold chord_step; simpl. rewrite (bool_decide_eq_false_2 _ Hkey), Hroot.
  unfold mbind, result_bind; simpl. rewrite Hnb. simpl.
  unfold final_original, item_join; simpl.
  rewrite (bool_decide_eq_true_2 (1 < length root)) by done. simpl.
  by rewrite <- ?app_assoc.
Qed.

(** C2.  For the malformed inversions [1/34], [2/45] and [1sus/3/5] in key
    C, [format_line] records the chord error and goes on with the last
    field: the pair of the match is still built, without its trailing text,
    and substituted into the line. *)
Theorem malformed_inversion_is_still_replaced :
  format_line definitions (lit "1/34") 4 (lit "C")
  = Ok [(lit "edits", VStr (lit "C"));
        (lit "errors", VErrors [ChordError (lit "1/34") 4])]
  /\ format_line definitions (lit "2/45  x") 3 (lit "C")
     = Ok [(lit "edits", VStr (lit "D  x"));
           (lit "errors", VErrors [ChordError (lit "2/45 ") 3])]
  /\ chord_pair definitions (lit "C")
       (ChordMatch [] [] (lit "1") (lit "sus/3/5") [])
     = Ok (lit "1sus/3/5", lit "C")
  /\ chord_pair definitions (lit "C")
       (ChordMatch [] [] (lit "1") (lit "/b3") [])
     = Ok (lit "1/b3", lit "C\ts{/Eb{\thin   }}").
Proof. split_and!; vm_compute; reflexivity. Qed.

(** C3.  In key C the root [b3] becomes [Eb], of the same length, and the
    text to replace takes one space more all the same: the chord after it
    moves one column to the left.  In key Ab the chord [1/4], whose root and
    bass both get longer, takes no space at all. *)
Theorem flat_three_in_C_consumes_a_space :
  translate definitions (lit "C") (lit "b3") = Ok (lit "Eb")
  /\ chord_pair definitions (lit "C")
       (ChordMatch [] (lit "b") (lit "3") [] [SPACE])
     = Ok (lit "b3  ", lit "Eb ")
  /\ format_line definitions (lit "b3      1") 0 (lit "C")
     = Ok [(lit "edits", VStr (lit "Eb     C")); (lit "errors", VErrors [])]
  /\ chord_pair definitions (lit "Ab")
       (ChordMatch [] [] (lit "1") (lit "/4") [SPACE])
     = Ok (lit "1/4 ", lit "Ab\ts{/Db{\thin   }} ").
Proof. split_and!; vm_compute; reflexivity. Qed.

(** * Further properties *)

(** ** The keys of the command line *)

Lemma split_not_nil (c : N) (s : str) : split c s <> [].
Proof.
  destruct s as [|x s]; simpl; [done |].
  destruct (N.eqb x c); [done |]. by destruct (split c s).
Qed.

Lemma join_cons_head (sep : str) (x : N) (h : str) (t : list str) :
  join sep ((x :: h) :: t) = x :: join sep (h :: t).
Proof. by destruct t. Qed.

Lemma join_split (c : N) (s : str) : join [c] (split c s) = s.
Proof.
  induction s as [|x s IH]; simpl; [done |].
  destruct (N.eqb_spec x c) as [-> | Hne].
  - pose proof (split_not_nil c s) as Hnil.
    destruct (split c s) as [|h t]; [done |]. simpl in *. by rewrite IH.
  - pose proof (split_not_nil c s) as Hnil.
    destruct (split c s) as [|h t]; [done |].
    rewrite join_cons_head. by rewrite IH.
Qed.

Lemma split_parts_no_sep (c : N) (s : str) :
  Forall (fun p => c ∉ p) (split c s).
Proof.
  induction s as [|x s IH]; simpl.
  - constructor; [apply not_elem_of_nil | constructor].
  - destruct (N.eqb_spec x c) as [-> | Hne].
    + constructor; [apply not_elem_of_nil | done].
    + pose proof (split_not_nil c s) as Hnil.
      destruct (split c s) as [|h t]; [done |].
      apply Forall_cons in IH as [Hh Ht]. constructor; [| done].
      apply not_elem_of_cons. split; [congruence | done].
Qed.

(** X1. The list of keys that [main] takes from the option [-k] is never
    empty, no key in it has a comma, and joined with commas it is the
    option again: an empty option asks for the one key [""]. *)
Theorem keys_of_argument_round_trip (arg : str) :
  keys_of_argument arg <> []
  /\ Forall (fun key => COMMA ∉ key) (keys_of_argument arg)
  /\ join (lit ",") (keys_of_argument arg) = arg
  /\ keys_of_argument [] = [[]].
Proof.
  unfold keys_of_argument. split_and!.
  - apply split_not_nil.
  - apply split_parts_no_sep.
  - apply (join_split COMMA).
  - reflexivity.
Qed.

Lemma filter_all {A} (P : A -> Prop) `{forall x, Decision (P x)} (l : list A) :
  Forall P l -> filter P l = l.
Proof.
  induction 1 as [|x l Hx _ IH]; [done |].
  rewrite filter_cons, decide_True by done. by rewrite IH.
Qed.

(** X2. When none of the keys of the option [-k] is in [CHORDS], the
    message of [validate_keys] repeats the option as it was typed. *)
Theorem invalid_keys_message_repeats_option vars (arg : str) :
  Forall (fun key => key ∉ dom (CHORDS vars)) (keys_of_argument arg) ->
  validate_keys vars (keys_of_argument arg)
  = Run [EvPrint ([NEWLINE] ++ lit "Error - invalid keys found: " ++ arg
                  ++ [NEWLINE])]
      (Raise (SystemExit 1)).
Proof.
  intros Hbad. rewrite validate_keys_outcome.
  rewrite decide_False.
  - rewrite (filter_all _ _ Hbad). unfold keys_of_argument.
    by rewrite (join_split COMMA).
  - intros Hgood. unfold keys_of_argument in *.
    pose proof (split_not_nil COMMA arg) as Hnil.
    destruct (split COMMA arg) as [|k ks]; [done |].
    apply Forall_cons in Hbad as [Hk _]. apply Forall_cons in Hgood as [Hk' _].
    done.
Qed.

Lemma invalid_keys_message_repeats_option_witness :
  validate_keys definitions (keys_of_argument (lit "H,,c"))
  = Run [EvPrint ([NEWLINE] ++ lit "Error - invalid keys found: " ++ lit "H,,c"
                  ++ [NEWLINE])]
      (Raise (SystemExit 1)).
Proof.
  apply (invalid_keys_message_repeats_option definitions (lit "H,,c")).
  vm_compute.
  repeat constructor; eapply bool_decide_unpack; vm_compute; exact I.
Defined.

(** ** The loop over the keys, whatever the formatter *)

Lemma main_valid_keys vars fl (keys : list str) dest
    (file_contents : list str) :
  Forall (fun k => k ∈ dom (CHORDS vars)) keys ->
  main vars fl keys dest file_contents
  = for_each_run (key_body fl dest file_contents) keys.
Proof.
  intros Hvalid. unfold main. rewrite validate_keys_outcome.
  rewrite decide_True by done. unfold run_bind; simpl.
  by destruct (for_each_run _ keys).
Qed.

(** X3. An exception of the formatter is not caught: when the passes of
    the keys [keys1] are clean and the pass of the next key raises, [main]
    has made the documents of [keys1] and ends with that exception, without
    a report and without going on to the keys after it. *)
Theorem exceptions_end_the_run vars fl dest (file_contents : list str)
    (keys1 : list str) (key : str) (keys2 : list str) (e : exn) :
  Forall (fun k => k ∈ dom (CHORDS vars)) (keys1 ++ key :: keys2) ->
  Forall (fun k => exists st, key_pass fl k file_contents = Ok st
                              /\ pass_errors st = []) keys1 ->
  key_pass fl key file_contents = Raise e ->
  main vars fl (keys1 ++ key :: keys2) dest file_contents
  = Run (flat_map (document fl dest file_contents) keys1) (Raise e).
Proof.
  intros Hvalid Hclean Hpass. rewrite main_valid_keys by done.
  rewrite for_each_run_app, (clean_keys_make_documents _ _ _ _ Hclean).
  unfold run_bind; simpl. unfold key_body. rewrite Hpass. simpl.
  by rewrite app_nil_r.
Qed.

Lemma exceptions_end_the_run_witness :
  main definitions (format_line_keywords definitions) [lit "C"; lit "D"]
    (lit "song") [lit "1  Amazing grace"]
  = Run [] (Raise TypeError).
Proof.
  apply (exceptions_end_the_run definitions (format_line_keywords definitions)
           (lit "song") [lit "1  Amazing grace"] [] (lit "C") [lit "D"]).
  - repeat constructor; eapply bool_decide_unpack; vm_compute; exact I.
  - constructor.
  - vm_compute. reflexivity.
Defined.

(** X4. As [main] is written, every chart with at least one line ends with
    a [TypeError] at the first call of [format_line], for every list of
    valid keys that is not empty: no document is made and nothing is
    printed. *)
Theorem main_as_written_stops_at_first_line vars (key : str) (keys : list str)
    dest (line : str) (rest : list str) :
  Forall (fun k => k ∈ dom (CHORDS vars)) (key :: keys) ->
  main vars (format_line_keywords vars) (key :: keys) dest (line :: rest)
  = Run [] (Raise TypeError).
Proof.
  intros Hvalid. rewrite main_valid_keys by done. reflexivity.
Qed.

Lemma main_as_written_stops_at_first_line_witness :
  main definitions (format_line_keywords definitions) [NNS; lit "Ab"]
    (lit "song") [lit "Verse 1"; lit "1  4  5"]
  = Run [] (Raise TypeError).
Proof.
  apply (main_as_written_stops_at_first_line definitions NNS [lit "Ab"]
           (lit "song") (lit "Verse 1") [lit "1  4  5"]).
  repeat constructor; eapply bool_decide_unpack; vm_compute; exact I.
Defined.

(** X5. On a chart without lines the formatter is not called: for every
    formatter (the one of [main] as written too) and every list of valid
    keys, [main] makes one document without lines for each key, in the order
    of the keys, named after the destination and the key. *)
Theorem empty_chart_makes_empty_documents vars fl (keys : list str) dest :
  Forall (fun k => k ∈ dom (CHORDS vars)) keys ->
  main vars fl keys dest []
  = Run (map (fun k => EvProcessDocument (dest ++ lit " (" ++ k ++ lit ")") [])
           keys)
      (Ok tt).
Proof.
  intros Hvalid. rewrite main_valid_keys by done. clear Hvalid.
  induction keys as [|k keys IH]; [done |].
  simpl. rewrite IH. reflexivity.
Qed.

Lemma empty_chart_makes_empty_documents_witness :
  main definitions (format_line_keywords definitions) [NNS; lit "G"]
    (lit "song") []
  = Run [EvProcessDocument (lit "song (NNS)") [];
         EvProcessDocument (lit "song (G)") []]
      (Ok tt).
Proof.
  apply (empty_chart_makes_empty_documents definitions
           (format_line_keywords definitions) [NNS; lit "G"] (lit "song")).
  repeat constructor; eapply bool_decide_unpack; vm_compute; exact I.
Defined.

Lemma lines_loop_lengths fl key lines : forall st st',
  for_each (line_body fl key) st lines = Ok st' ->
  length (formatted_lines st')
  = (length (formatted_lines st) + length lines)%nat
  /\ i st' = (i st + Z.of_nat (length lines))%Z.
Proof.
  induction lines as [|line lines IH]; intros st st' H; simpl in H.
  - simplify_eq. simpl. split; lia.
  - destruct (line_body fl key st line) as [st1|] eqn:E; [| done].
    destruct (IH _ _ H) as [Hlen Hi].
    unfold line_body, mbind, result_bind in E.
    destruct (fl _) as [results|]; [| done].
    destruct (iterate _) as [errs|]; [| done]. simplify_eq. simpl in *.
    rewrite length_app in Hlen. simpl in Hlen. split; lia.
Qed.

(** X6. When every key is valid and the pass of every key ends without
    chord error, [main] ends normally after one call of [process_document]
    for each key, in the order of the keys (a key given twice gets its
    document twice), named after the destination and the key, with as many
    formatted lines as the chart has lines. *)
Theorem clean_run_makes_one_document_per_key vars fl (keys : list str) dest
    (file_contents : list str) :
  Forall (fun k => k ∈ dom (CHORDS vars)) keys ->
  Forall (fun k => exists st, key_pass fl k file_contents = Ok st
                              /\ pass_errors st = []) keys ->
  exists contents : list (list pyval),
    main vars fl keys dest file_contents
    = Run (zip_with
             (fun k c => EvProcessDocument (dest ++ lit " (" ++ k ++ lit ")") c)
             keys contents)
        (Ok tt)
    /\ length contents = length keys
    /\ Forall (fun c => length c = length file_contents) contents.
Proof.
  intros Hvalid Hclean. rewrite main_valid_keys by done. clear Hvalid.
  induction Hclean
    as [|k keys (st & Hst & Hnil) _ (contents & IH & Hlen & Hall)].
  - exists []. by split_and!.
  - exists (formatted_lines st :: contents). split_and!.
    + simpl. rewrite IH. unfold key_body, run_bind. rewrite Hst, Hnil. done.
    + simpl. by rewrite Hlen.
    + constructor; [| done].
      by destruct (lines_loop_lengths _ _ _ _ _ Hst) as [-> _].
Qed.

Lemma clean_run_makes_one_document_per_key_witness :
  exists contents : list (list pyval),
    main definitions (format_line_declared definitions) [lit "C"; lit "C"]
      (lit "song") [lit "1  Amazing"; lit "grace"]
    = Run (zip_with
             (fun k c =>
                EvProcessDocument (lit "song" ++ lit " (" ++ k ++ lit ")") c)
             [lit "C"; lit "C"] contents)
        (Ok tt)
    /\ length contents = 2%nat.
Proof.
  destruct (clean_run_makes_one_document_per_key definitions
              (format_line_declared definitions) [lit "C"; lit "C"]
              (lit "song") [lit "1  Amazing"; lit "grace"])
    as (contents & H1 & H2 & _).
  - repeat constructor; eapply bool_decide_unpack; vm_compute; exact I.
  - repeat constructor; eexists; split; vm_compute; reflexivity.
  - exists contents. split; [exact H1 | exact H2].
Defined.

(** ** The pair of one match, in every key *)

(** X7. Whatever the table, the patterns and the key: the text that is
    replaced for a match is its five fields with at most one space more,
    and the replacement keeps the leading and the trailing filler of the
    match as they are. *)
Theorem chord_pair_keeps_fillers vars (key : str) m (original edited : str) :
  chord_pair vars key m = Ok (original, edited) ->
  (original = item_join m \/ original = item_join m ++ [SPACE])
  /\ exists middle, edited = field0 m ++ middle ++ field4 m.
Proof.
  intros H. unfold chord_pair, mbind, result_bind in H.
  destruct (chord_loop_of vars key 0 [] m) as [v|] eqn:E; [| done].
  simpl in H. simplify_eq. split.
  - unfold final_original. rewrite (original_chord_joined _ _ _ _ _ _ E).
    unfold item_join; simpl. case_bool_decide; [right | left];
      by rewrite <- ?app_assoc.
  - clear -E. destruct m as [m0 m1 m2 m3 m4].
    chord_loop. repeat (case_match; simplify_eq/=; try done).
    all: rewrite <- ?app_assoc.
    all: match goal with
         | |- exists middle, ?a ++ ?r = ?a ++ middle ++ ?b =>
             assert (b `suffix_of` r) as [k ->]
               by (repeat apply suffix_app_r; done);
             by exists k
         end.
Qed.

Lemma chord_pair_keeps_fillers_witness :
  (lit " b3sus  "
   = item_join (ChordMatch (lit " ") (lit "b") (lit "3") (lit "sus") (lit " "))
   \/ lit " b3sus  "
      = item_join
          (ChordMatch (lit " ") (lit "b") (lit "3") (lit "sus") (lit " "))
        ++ [SPACE])
  /\ exists middle,
       lit " Eb\ts{sus{\thin   }} " = lit " " ++ middle ++ lit " ".
Proof.
  apply (chord_pair_keeps_fillers definitions (lit "C")
           (ChordMatch (lit " ") (lit "b") (lit "3") (lit "sus") (lit " "))).
  vm_compute. reflexivity.
Defined.

Lemma not_blank_with_slash (text : str) :
  SLASH ∈ text -> not_blank text = true.
Proof.
  intros H. unfold not_blank. rewrite bool_decide_eq_false_2; [done |].
  intros Hin. repeat (apply elem_of_cons in Hin as [-> | Hin]).
  - by apply elem_of_nil in H.
  - apply list_elem_of_singleton in H. discriminate.
  - apply list_elem_of_singleton in H. discriminate.
  - by apply elem_of_nil in Hin.
Qed.

Lemma spaces_of_length (t : str) :
  spaces (Z.of_nat (length t) - 0) = repeat SPACE (length t).
Proof. unfold spaces. by rewrite Z.sub_0_r, Nat2Z.id. Qed.

(** X8. In a lettered key, for a match whose trailing text has no
    inversion: the accidental and the digit are replaced together by the
    entry of the table, the trailing text is superscripted with its filler
    as in NNS, and the text to replace takes one space more exactly when
    the entry has more than one character. *)
Theorem lettered_chord_without_inversion vars (key : str) m (root : str) :
  key <> NNS ->
  SLASH ∉ field3 m ->
  translate vars key (field1 m ++ field2 m) = Ok root ->
  chord_pair vars key m
  = Ok (item_join m ++ (if bool_decide (1 < length root) then [SPACE] else []),
        field0 m ++ root ++ superscript_after (field3 m) ++ field4 m).
Proof.
  destruct m as [m0 m1 m2 m3 m4]. unfold chord_pair, chord_loop_of.
  simpl. intros Hkey Hno Hroot.
  unfold superscript_after, filler_width. rewrite <- replace_char_nil.
  unfold chord_step; simpl. rewrite (bool_decide_eq_false_2 _ Hkey), Hroot.
  unfold mbind, result_bind; simpl.
  unfold final_original, item_join, superscript_post, add_edited; simpl.
  destruct (not_blank m3) eqn:Hnb; simpl.
  - rewrite bool_decide_eq_false_2 by done. simpl.
    rewrite spaces_of_length.
    destruct (bool_decide (1 < length root)); simpl;
      by rewrite <- ?app_assoc, ?app_nil_r.
  - destruct (bool_decide (1 < length root)); simpl;
      by rewrite <- ?app_assoc, ?app_nil_r.
Qed.

Lemma lettered_chord_without_inversion_witness :
  chord_pair definitions (lit "Ab")
    (ChordMatch [] [] (lit "4") (TRIANGLE :: lit "7") [SPACE])
  = Ok (lit "4" ++ [TRIANGLE] ++ lit "7  ",
        lit "Db\ts{" ++ [TRIANGLE] ++ lit "7{\thin }} ").
Proof.
  apply (lettered_chord_without_inversion definitions (lit "Ab")
           (ChordMatch [] [] (lit "4") (TRIANGLE :: lit "7") [SPACE])
           (lit "Db")).
  - discriminate.
  - eapply bool_decide_unpack. vm_compute. exact I.
  - vm_compute. reflexivity.
Defined.

(** X9. In a lettered key, for a match with a valid inversion: the bass is
    replaced by its entry in the table and superscripted with the text in
    front of it, and the text to replace takes one space more exactly when
    one of the two, root entry longer than one character and bass entry
    longer than the bass, holds and not the other. *)
Theorem lettered_chord_with_inversion vars (key : str) m
    (root head bass entry : str) :
  key <> NNS ->
  field3 m = head ++ [SLASH] ++ bass ->
  SLASH ∉ head ->
  SLASH ∉ bass ->
  invalid_inversion vars (field3 m) bass = false ->
  translate vars key (field1 m ++ field2 m) = Ok root ->
  translate vars key bass = Ok entry ->
  chord_pair vars key m
  = Ok (item_join m
        ++ (if xorb (bool_decide (1 < length root))
                 (bool_decide (length bass < length entry))
            then [SPACE] else []),
        field0 m ++ root ++ superscript_after (head ++ [SLASH] ++ entry)
        ++ field4 m).
Proof.
  destruct m as [m0 m1 m2 m3 m4]. unfold chord_pair, chord_loop_of.
  simpl. intros Hkey -> Hh Hb Hok Hroot Hentry.
  assert (SLASH ∈ head ++ SLASH :: bass) as Hin
    by (apply elem_of_app; right; apply list_elem_of_here).
  assert (SLASH ∈ head ++ SLASH :: entry) as Hin'
    by (apply elem_of_app; right; apply list_elem_of_here).
  unfold superscript_after, filler_width. rewrite <- replace_char_nil.
  rewrite (not_blank_with_slash _ Hin').
  unfold chord_step; simpl. rewrite (bool_decide_eq_false_2 _ Hkey), Hroot.
  unfold mbind, result_bind; simpl.
  rewrite (not_blank_with_slash _ Hin), (bool_decide_eq_true_2 _ Hin).
  rewrite split_at_sep, split_no_sep by done. simpl.
  rewrite Hok, Hentry. simpl.
  unfold final_original, item_join, superscript_post, add_edited; simpl.
  rewrite spaces_of_length.
  destruct (bool_decide (1 < length root));
    destruct (bool_decide (length bass < length entry)); simpl;
    by rewrite <- ?app_assoc, ?app_nil_r.
Qed.

Lemma lettered_chord_with_inversion_witness :
  chord_pair definitions (lit "Ab")
    (ChordMatch [] [] (lit "1") (lit "sus/4") [SPACE])
  = Ok (lit "1sus/4 ", lit "Ab\ts{sus/Db{\thin      }} ").
Proof.
  apply (lettered_chord_with_inversion definitions (lit "Ab")
           (ChordMatch [] [] (lit "1") (lit "sus/4") [SPACE])
           (lit "Ab") (lit "sus") (lit "4") (lit "Db")).
  - discriminate.
  - reflexivity.
  - eapply bool_decide_unpack. vm_compute. exact I.
  - eapply bool_decide_unpack. vm_compute. exact I.
  - vm_compute. reflexivity.
  - vm_compute. reflexivity.
  - vm_compute. reflexivity.
Defined.

Lemma chord_loop_unknown_key vars key num errs m :
  CHORDS vars !! key = None ->
  chord_loop_of vars key num errs m = Raise KeyError.
Proof.
  intros Hkey. destruct m as [m0 m1 m2 m3 m4].
  unfold chord_loop_of. simpl.
  unfold chord_step, translate, getitem; simpl. rewrite Hkey.
  unfold mbind, result_bind; simpl.
  destruct (bool_decide (key = NNS)); [| done].
  by destruct (not_blank m1).
Qed.

(** X10. [format_line] does not check its key: with a key that is not in
    [CHORDS] it raises [KeyError] as soon as the line has a chord match, and
    returns the line with its markup, without error, when it has none. *)
Theorem unknown_key_raises_key_error vars (line : str) (num : Z) (key : str) :
  CHORDS vars !! key = None ->
  format_line vars line num key
  = match chord_matches vars (marked vars line) with
    | [] => Ok [(lit "edits", VStr (marked vars line));
                (lit "errors", VErrors [])]
    | _ :: _ => Raise KeyError
    end.
Proof.
  intros Hkey. unfold format_line. fold (marked vars line).
  destruct (chord_matches vars (marked vars line)) as [|m ms]; [done |].
  cbn [for_each]. rewrite chord_body_outcome. unfold chord_pair.
  by rewrite (chord_loop_unknown_key _ _ _ _ _ Hkey).
Qed.

Lemma unknown_key_raises_key_error_witness :
  format_line definitions (lit "1  Amazing grace") 0 (lit "H") = Raise KeyError.
Proof.
  apply (unknown_key_raises_key_error definitions (lit "1  Amazing grace") 0
           (lit "H")).
  vm_compute. reflexivity.
Defined.

(** ** White space at the end of a line *)

Lemma lstrip_spec (s : str) :
  exists ws, s = ws ++ lstrip s
             /\ Forall (fun c => isspace c = true) ws
             /\ forall c, head (lstrip s) = Some c -> isspace c = false.
Proof.
  induction s as [|x s (ws & Hs & Hws & Hhead)]; simpl.
  - exists []. by split_and!.
  - destruct (isspace x) eqn:Hx.
    + exists (x :: ws). split_and!; [simpl; by f_equal | by constructor | done].
    + exists []. split_and!; [done | constructor |].
      intros c Hc. simpl in Hc. by simplify_eq.
Qed.

Lemma lstrip_fixed (s : str) :
  (forall c, head s = Some c -> isspace c = false) -> lstrip s = s.
Proof.
  destruct s as [|x s]; [done |]. intros H. simpl.
  by rewrite (H x eq_refl).
Qed.

Lemma last_rev_head {A} (l : list A) : last (rev l) = head l.
Proof. destruct l as [|x l]; [done |]. simpl. apply last_snoc. Qed.

Lemma rstrip_spec (s : str) :
  exists ws, s = rstrip s ++ ws
             /\ Forall (fun c => isspace c = true) ws
             /\ forall c, last (rstrip s) = Some c -> isspace c = false.
Proof.
  unfold rstrip. destruct (lstrip_spec (rev s)) as (ws & Hs & Hws & Hhead).
  exists (rev ws). split_and!.
  - rewrite <- rev_app_distr, <- Hs. by rewrite rev_involutive.
  - by apply Forall_rev.
  - intros c Hc. apply Hhead. by rewrite <- Hc, last_rev_head.
Qed.

Lemma rstrip_idemp (s : str) : rstrip (rstrip s) = rstrip s.
Proof.
  destruct (lstrip_spec (rev s)) as (ws & _ & _ & Hhead).
  unfold rstrip. rewrite rev_involutive. by rewrite (lstrip_fixed _ Hhead).
Qed.

Lemma rstrip_app_space (s : str) : rstrip (s ++ [SPACE]) = rstrip s.
Proof. unfold rstrip. by rewrite rev_app_distr. Qed.

(** ** Replacing a text by itself *)

Lemma strip_prefix_app (p s rest : str) :
  strip_prefix p s = Some rest -> s = p ++ rest.
Proof.
  revert s. induction p as [|a p IH]; intros s H; simpl in H.
  - by simplify_eq.
  - destruct s as [|b s]; [done |].
    destruct (N.eqb_spec a b) as [-> | _]; [| done].
    simpl. f_equal. by apply IH.
Qed.

Lemma replace_from_skip (old new : str) (s : str) : forall k,
  replace_from old new k s = replace_from old new 0 (drop k s).
Proof.
  induction s as [|c s IH]; intros k; [by destruct k |].
  destruct k as [|k]; [done |]. simpl. apply IH.
Qed.

Lemma replace_from_same (a : N) (old : str) (n : nat) : forall s : str,
  (length s <= n)%nat -> replace_from (a :: old) (a :: old) 0 s = s.
Proof.
  induction n as [|n IH]; intros s Hn.
  - destruct s; [done | simpl in Hn; lia].
  - destruct s as [|c s]; [done |].
    cbn [replace_from]. unfold startswith.
    destruct (strip_prefix (a :: old) (c :: s)) as [rest|] eqn:E.
    + apply strip_prefix_app in E. rewrite replace_from_skip.
      simpl in E. simplify_eq. simpl. rewrite Nat.sub_0_r, drop_app_length.
      rewrite IH; [done |]. simpl in Hn. rewrite length_app in Hn. lia.
    + rewrite IH; [done |]. simpl in Hn. lia.
Qed.

Lemma replace_same (s old : str) : replace s old old = s.
Proof.
  destruct old as [|a old].
  - unfold replace. simpl. induction s as [|c s IH]; [done |].
    simpl. by rewrite IH.
  - unfold replace. by apply (replace_from_same _ _ (length s)).
Qed.

Lemma substitute_same (chords : list (str * str)) : forall line : str,
  Forall (fun c => fst c = snd c) chords ->
  chords <> [] ->
  substitute line chords = rstrip line.
Proof.
  unfold substitute.
  induction chords as [|c chords IH]; intros line Hsame Hne; [done |].
  apply Forall_cons in Hsame as [Hc Hsame]. simpl.
  rewrite <- Hc, replace_same, rstrip_app_space.
  destruct chords as [|c' chords]; [done |].
  rewrite IH by done. apply rstrip_idemp.
Qed.

(** ** Lines in NNS and the end of a formatted line *)

Lemma plain_chord_pair vars m :
  field1 m = [] -> field3 m = [] ->
  translate vars NNS (field2 m) = Ok (field2 m) ->
  (length (field2 m) <= 1)%nat ->
  chord_pair vars NNS m = Ok (item_join m, item_join m).
Proof.
  destruct m as [m0 m1 m2 m3 m4]; simpl. intros -> -> Hroot Hlen.
  unfold chord_pair, chord_loop_of; simpl.
  unfold chord_step; simpl.
  rewrite !(bool_decide_eq_true_2 (NNS = NNS)) by done. simpl.
  rewrite Hroot. unfold mbind, result_bind; simpl.
  unfold final_original, item_join; simpl.
  rewrite (bool_decide_eq_false_2 (1 < length m2)) by lia. simpl.
  by rewrite <- ?app_assoc, ?app_nil_r.
Qed.

Lemma plain_chord_not_malformed vars m :
  field3 m = [] -> malformed vars m = false.
Proof. intros H. unfold malformed. by rewrite H. Qed.

(** X11. In NNS a line whose chords are all plain (no accidental, no
    trailing text, a root of one character that the table of NNS leaves as
    it is) comes back as it went in after its markup, but for the white
    space at its end, and without error. *)
Theorem nns_plain_line_is_unchanged vars (line : str) (num : Z) :
  chord_matches vars (marked vars line) <> [] ->
  Forall (fun m => field1 m = [] /\ field3 m = []
                   /\ translate vars NNS (field2 m) = Ok (field2 m)
                   /\ (length (field2 m) <= 1)%nat)
    (chord_matches vars (marked vars line)) ->
  format_line vars line num NNS
  = Ok [(lit "edits", VStr (rstrip (marked vars line)));
        (lit "errors", VErrors [])].
Proof.
  intros Hne Hplain.
  assert (Forall (fun m => exists c, chord_pair vars NNS m = Ok c)
            (chord_matches vars (marked vars line))) as Hok.
  { eapply Forall_impl; [exact Hplain |]. intros m (H1 & H3 & Hr & Hl).
    eexists. by apply plain_chord_pair. }
  destruct (chords_loop vars NNS num _ [] [] Hok)
    as (chords & errs & Hloop & _ & Hin & Herr).
  unfold format_line. fold (marked vars line). rewrite Hloop. simpl.
  assert (errs = []) as ->.
  { rewrite Herr. simpl. clear -Hplain.
    induction Hplain as [|m ms (_ & H3 & _) _ IH]; [done |].
    simpl. by rewrite (plain_chord_not_malformed _ _ H3). }
  rewrite substitute_same; [done | |].
  - apply Forall_forall. intros c Hc. apply Hin in Hc as [Hc | (m & Hm & Hc)].
    + by apply elem_of_nil in Hc.
    + rewrite Forall_forall in Hplain.
      destruct (Hplain m Hm) as (H1 & H3 & Hr & Hl).
      rewrite (plain_chord_pair _ _ H1 H3 Hr Hl) in Hc. by simplify_eq.
  - destruct (chord_matches vars (marked vars line)) as [|m ms] eqn:E; [done |].
    apply Forall_cons in Hok as [[c Hc] _]. intros ->.
    assert (c ∈ ([] : list (str * str))) as Habs.
    { apply Hin. right. exists m. split; [apply list_elem_of_here | done]. }
    by apply elem_of_nil in Habs.
Qed.

Lemma nns_plain_line_is_unchanged_witness :
  format_line definitions (lit "1   4   5") 0 NNS
  = Ok [(lit "edits", VStr (lit "1   4   5")); (lit "errors", VErrors [])].
Proof.
  apply (nns_plain_line_is_unchanged definitions (lit "1   4   5") 0).
  - vm_compute. discriminate.
  - vm_compute. repeat constructor.
Defined.

Lemma substitute_last (chords : list (str * str)) (line : str) :
  chords <> [] ->
  forall c, last (substitute line chords) = Some c -> isspace c = false.
Proof.
  intros Hne. destruct (exists_last Hne) as (chords' & pair & ->).
  unfold substitute. rewrite fold_left_app. simpl.
  destruct (rstrip_spec
              (replace (fold_left
                          (fun l c => rstrip (replace (l ++ [SPACE]) c.1 c.2))
                          chords' line ++ [SPACE]) pair.1 pair.2))
    as (ws & _ & _ & Hlast).
  exact Hlast.
Qed.

(** X12. When [format_line] returns for a line with at least one chord
    match, the formatted line does not end with white space. *)
Theorem formatted_line_has_no_trailing_space vars (line : str) (num : Z)
    (key : str) results :
  format_line vars line num key = Ok results ->
  chord_matches vars (marked vars line) <> [] ->
  exists edits,
    dict_get results (lit "edits") = VStr edits
    /\ forall c, last edits = Some c -> isspace c = false.
Proof.
  unfold format_line. fold (marked vars line).
  destruct (for_each _ _ _) as [[chords errs]|] eqn:E; [| done].
  intros H Hne. simpl in H. simplify_eq.
  eexists. split; [reflexivity |]. apply substitute_last.
  pose proof (chords_loop_pairs _ _ _ _ _ _ E) as Hok.
  destruct (chords_loop vars key num _ [] [] Hok)
    as (chords' & errs' & Hloop & _ & Hin & _).
  rewrite E in Hloop. simplify_eq.
  destruct (chord_matches vars (marked vars line)) as [|m ms]; [done |].
  apply Forall_cons in Hok as [[c Hc] _]. simpl. intros ->.
  assert (c ∈ ([] : list (str * str))) as Habs.
  { apply Hin. right. exists m. split; [apply list_elem_of_here | done]. }
  by apply elem_of_nil in Habs.
Qed.

Lemma formatted_line_has_no_trailing_space_witness :
  exists edits,
    dict_get
      [(lit "edits", VStr (lit "Ab   lyrics")); (lit "errors", VErrors [])]
      (lit "edits") = VStr edits
    /\ forall c, last edits = Some c -> isspace c = false.
Proof.
  apply (formatted_line_has_no_trailing_space definitions
           (lit "1    lyrics   ") 0 (lit "Ab")).
  - vm_compute. reflexivity.
  - vm_compute. discriminate.
Defined.

(** ** The errors of a pass *)






(** ** Reading the chart *)

Lemma appended_lines (raw : list str) : forall acc : list str,
  fold_left (fun file_contents line => file_contents ++ [rstrip line]) raw acc
  = acc ++ map rstrip raw.
Proof.
  induction raw as [|l raw IH]; intros acc; simpl.
  - by rewrite app_nil_r.
  - by rewrite IH, <- app_assoc.
Qed.

Lemma read_file_contents_found fs (filename : str) (raw : list str) :
  open_read fs (opened_path fs filename) = Some raw ->
  read_file_contents fs filename = Run [] (Ok (map rstrip raw)).
Proof.
  intros H. unfold read_file_contents. rewrite H.
  by rewrite (appended_lines raw []).
Qed.

(** X15. When the file is found, [read_file_contents] prints nothing and
    returns one line for each line of the file, in order: the line without
    the white space at its end, so that no line of the chart ends with a
    newline or a space. *)
Theorem read_lines_have_no_trailing_space fs (filename : str)
    (raw : list str) :
  open_read fs (opened_path fs filename) = Some raw ->
  exists lines,
    read_file_contents fs filename = Run [] (Ok lines)
    /\ Forall2 (fun r l =>
                  exists ws, r = l ++ ws
                             /\ Forall (fun c => isspace c = true) ws
                             /\ forall c, last l = Some c -> isspace c = false)
         raw lines.
Proof.
  intros H. exists (map rstrip raw).
  split; [by apply read_file_contents_found |].
  clear H. induction raw as [|r raw IH]; simpl; constructor; [| done].
  apply rstrip_spec.
Qed.

Lemma read_lines_have_no_trailing_space_witness :
  exists lines,
    read_file_contents example_fs (lit "song.txt") = Run [] (Ok lines)
    /\ Forall2 (fun r l =>
                  exists ws, r = l ++ ws
                             /\ Forall (fun c => isspace c = true) ws
                             /\ forall c, last l = Some c -> isspace c = false)
         [lit "1   4  " ++ [NEWLINE]; lit "grace" ++ [NEWLINE]] lines.
Proof.
  apply (read_lines_have_no_trailing_space example_fs (lit "song.txt")).
  vm_compute. reflexivity.
Defined.

(** ** The start of [main] *)

(** X16. A source file that is not found ends [main] with exit status 0,
    after a message with the path that was tried, before the keys are
    validated: the keys of the option, valid or not, and the formatter play
    no part.  The path tried is the name itself when it is absolute. *)
Theorem missing_file_exits_with_status_0 vars fs fl (help : str) default
    (src : str) (keys : str) dest :
  open_read fs (opened_path fs src) = None ->
  cli_main vars fs fl help default (Args [src] keys dest)
  = Run [EvPrint (lit "File not found: " ++ opened_path fs src ++ [NEWLINE]
                  ++ lit "Exiting...")]
      (Raise (SystemExit 0))
  /\ (startswith src [SLASH] = true -> opened_path fs src = src).
Proof.
  intros H. split.
  - unfold cli_main. simpl. unfold read_file_contents. by rewrite H.
  - intros Habs. unfold opened_path, path_join. rewrite Habs.
    by destruct (isfile fs src).
Qed.

Lemma missing_file_exits_with_status_0_witness :
  cli_main definitions example_fs (format_line_keywords definitions)
    (lit "usage") (fun s => s)
    (Args [lit "hymn.txt"] (lit "H,J") None)
  = Run [EvPrint (lit "File not found: " ++ lit "/home/band/hymn.txt"
                  ++ [NEWLINE] ++ lit "Exiting...")]
      (Raise (SystemExit 0)).
Proof.
  apply (missing_file_exits_with_status_0 definitions example_fs
           (format_line_keywords definitions) (lit "usage") (fun s => s)
           (lit "hymn.txt") (lit "H,J") None).
  vm_compute. reflexivity.
Defined.

(** X17. From the arguments to the documents: with one source file that
    is found, keys that are all valid and passes without chord error,
    [main] ends normally after one document for each key of the option [-k],
    made from the lines of the file without the white space at their ends,
    and named after the option [-n], or after the source file when that
    option is missing or empty. *)
Theorem one_document_per_requested_key vars fs fl (help : str) default
    (src : str) (keys : str) dest (raw : list str) :
  open_read fs (opened_path fs src) = Some raw ->
  Forall (fun k => k ∈ dom (CHORDS vars)) (keys_of_argument keys) ->
  Forall (fun k => exists st, key_pass fl k (map rstrip raw) = Ok st
                              /\ pass_errors st = [])
    (keys_of_argument keys) ->
  cli_main vars fs fl help default (Args [src] keys dest)
  = Run (flat_map
           (document fl
              (match dest with
               | Some (c :: name) => c :: name
               | _ => default src
               end)
              (map rstrip raw))
           (keys_of_argument keys))
      (Ok tt).
Proof.
  intros Hopen Hvalid Hclean. unfold cli_main. simpl.
  rewrite (read_file_contents_found _ _ _ Hopen).
  unfold run_bind at 1; simpl. rewrite main_valid_keys by done.
  unfold destination; simpl.
  rewrite (clean_keys_make_documents _ _ _ _ Hclean). done.
Qed.

Lemma one_document_per_requested_key_witness :
  cli_main definitions example_fs (format_line_declared definitions)
    (lit "usage") default_name_of
    (Args [lit "song.txt"] (lit "NNS,G") (Some []))
  = Run [EvProcessDocument (lit "song (NNS)")
           [VStr (lit "1   4"); VStr (lit "grace")];
         EvProcessDocument (lit "song (G)")
           [VStr (lit "G   C"); VStr (lit "grace")]]
      (Ok tt).
Proof.
  apply (one_document_per_requested_key definitions example_fs
           (format_line_declared definitions) (lit "usage")
           default_name_of (lit "song.txt") (lit "NNS,G") (Some [])
           [lit "1   4  " ++ [NEWLINE]; lit "grace" ++ [NEWLINE]]).
  - vm_compute. reflexivity.
  - replace (keys_of_argument (lit "NNS,G")) with [NNS; lit "G"]
      by (vm_compute; reflexivity).
    repeat constructor; eapply bool_decide_unpack; vm_compute; exact I.
  - replace (keys_of_argument (lit "NNS,G")) with [NNS; lit "G"]
      by (vm_compute; reflexivity).
    repeat constructor; eexists; split; vm_compute; reflexivity.
Defined.

(** ** The default name of the documents *)

Lemma matches_seq r1 r2 (s : str) g :
  Re.matches (Re.Seq r1 r2) s g
  = flat_map (fun x => Re.matches r2 (fst x) (snd x)) (Re.matches r1 s g).
Proof. reflexivity. Qed.

Lemma matches_group n r (s : str) g :
  Re.matches (Re.Group n r) s g
  = map (fun x => (fst x, (n, take (length s - length (fst x)) s) :: snd x))
      (Re.matches r s g).
Proof. reflexivity. Qed.

Lemma matches_star r (s : str) g :
  Re.matches (Re.Star r) s g = Re.star_matches (Re.matches r) (length s) s g.
Proof. reflexivity. Qed.

Lemma matches_chr p (s : str) g :
  Re.matches (Re.Chr p) s g
  = match s with
    | c :: s' => if p c then [(s', g)] else []
    | [] => []
    end.
Proof. reflexivity. Qed.

Lemma star_of_class (p : N -> bool) (n : nat) : forall (s : str) g,
  (length s <= n)%nat ->
  Re.star_matches (Re.matches (Re.Chr p)) n s g
  = map (fun t => (t, g)) (greedy p s).
Proof.
  induction n as [|n IH]; intros s g Hn.
  - destruct s; [done | simpl in Hn; lia].
  - destruct s as [|c s]; [done |]. cbn [Re.star_matches greedy].
    rewrite matches_chr.
    destruct (p c); [| done]. cbn [flat_map fst snd].
    rewrite bool_decide_eq_true_2 by (simpl; lia).
    rewrite app_nil_r, IH by (simpl in Hn; lia).
    by rewrite map_app.
Qed.

Lemma matches_star_of_class (p : N -> bool) (s : str) g :
  Re.matches (Re.Star (Re.Chr p)) s g = map (fun t => (t, g)) (greedy p s).
Proof. rewrite matches_star. by apply star_of_class. Qed.

Lemma greedy_not_nil p (s : str) : greedy p s <> [].
Proof.
  destruct s as [|c s]; simpl; [done |].
  destruct (p c); [| done]. by destruct (greedy p s).
Qed.

Lemma head_app_l {A} (l1 l2 : list A) : l1 <> [] -> head (l1 ++ l2) = head l1.
Proof. by destruct l1. Qed.

Lemma greedy_head_all p (s : str) :
  Forall (fun c => p c = true) s -> head (greedy p s) = Some [].
Proof.
  induction 1 as [|c s Hc _ IH]; [done |]. simpl. rewrite Hc.
  by rewrite head_app_l by apply greedy_not_nil.
Qed.

Lemma greedy_head_stop p (a : str) (c : N) (rest : str) :
  Forall (fun c => p c = true) a -> p c = false ->
  head (greedy p (a ++ c :: rest)) = Some (c :: rest).
Proof.
  intros Ha Hc. induction Ha as [|x a Hx _ IH]; simpl.
  - by rewrite Hc.
  - rewrite Hx. by rewrite head_app_l by apply greedy_not_nil.
Qed.

Lemma head_flat_map {A B} (f : A -> list B) (l : list A) x y :
  head l = Some x -> head (f x) = Some y -> head (flat_map f l) = Some y.
Proof.
  destruct l as [|x' l]; [done |]. simpl. intros [= ->] Hy.
  destruct (f x); [done |]. done.
Qed.

Lemma any_slash_rests (s : str) g :
  Re.matches (Re.Seq ANY (Re.Chr is_slash)) s g
  = flat_map (fun t => match t with
                       | c :: t' => if is_slash c then [(t', g)] else []
                       | [] => []
                       end) (greedy any_char s).
Proof.
  unfold ANY. rewrite matches_seq, matches_star_of_class.
  induction (greedy any_char s) as [|t l IH]; [done |].
  cbn [map flat_map fst snd]. rewrite IH, matches_chr. by destruct t.
Qed.

Lemma any_slash_none (s : str) g :
  SLASH ∉ s -> Re.matches (Re.Seq ANY (Re.Chr is_slash)) s g = [].
Proof.
  rewrite any_slash_rests. unfold is_slash.
  induction s as [|c s IH]; intros H; [done |].
  apply not_elem_of_cons in H as [Hc Hs]. simpl.
  destruct (any_char c); simpl.
  - rewrite flat_map_app, IH by done. simpl.
    by destruct (N.eqb_spec c SLASH).
  - by destruct (N.eqb_spec c SLASH).
Qed.

Lemma any_slash_head (d r : str) g :
  NEWLINE ∉ d -> SLASH ∉ r ->
  head (Re.matches (Re.Seq ANY (Re.Chr is_slash)) (d ++ SLASH :: r) g)
  = Some (r, g).
Proof.
  intros Hd Hr. rewrite any_slash_rests.
  induction d as [|x d IH]; simpl.
  - rewrite flat_map_app. simpl.
    pose proof (any_slash_none r g Hr) as Hnone.
    rewrite any_slash_rests in Hnone. rewrite Hnone.
    unfold is_slash. by rewrite ?N.eqb_refl.
  - apply not_elem_of_cons in Hd as [Hx Hd].
    assert (any_char x = true) as ->.
    { unfold any_char. by destruct (N.eqb_spec x NEWLINE). }
    rewrite flat_map_app, head_app_l; [by apply IH |].
    specialize (IH Hd). by destruct (flat_map _ _).
Qed.

Lemma take_consumed (a b : str) :
  take (length (a ++ b) - length b) (a ++ b) = a.
Proof.
  rewrite length_app.
  replace (length a + length b - length b)%nat with (length a) by lia.
  by rewrite take_app_length.
Qed.

Lemma head_map {A B} (f : A -> B) (l : list A) : head (map f l) = f <$> head l.
Proof. by destruct l. Qed.

Lemma directory_none (s : str) g : SLASH ∉ s -> Re.matches DIRECTORY s g = [].
Proof.
  intros H. unfold DIRECTORY. by rewrite matches_group, any_slash_none.
Qed.

Lemma directory_head (d r : str) g :
  NEWLINE ∉ d -> SLASH ∉ r ->
  head (Re.matches DIRECTORY (d ++ SLASH :: r) g)
  = Some (r, (1%nat, d ++ [SLASH]) :: g).
Proof.
  intros Hd Hr. unfold DIRECTORY.
  rewrite matches_group, head_map, any_slash_head by done.
  change (Some (r, (1%nat,
                    take (length (d ++ SLASH :: r) - length r)
                      (d ++ SLASH :: r)) :: g)
          = Some (r, (1%nat, d ++ [SLASH]) :: g)).
  replace (d ++ SLASH :: r) with ((d ++ [SLASH]) ++ r)
    by (by rewrite <- app_assoc).
  by rewrite take_consumed.
Qed.

Lemma star_matches_S step (n : nat) (s : str) g :
  Re.star_matches step (S n) s g
  = flat_map (fun x => if bool_decide (length (fst x) < length s)%nat
                       then Re.star_matches step n (fst x) (snd x) else [])
      (step s g)
    ++ [(s, g)].
Proof. reflexivity. Qed.

Lemma star_no_step step (n : nat) (s : str) g :
  step s g = [] -> Re.star_matches step n s g = [(s, g)].
Proof. intros H. destruct n; simpl; [done |]. by rewrite H. Qed.

(** The repetition of group 1 goes first to the text after the last
    slash. *)
Lemma directories_head (dir t : str) g :
  dir = [] \/ (exists d, dir = d ++ [SLASH]) ->
  NEWLINE ∉ dir -> SLASH ∉ t ->
  exists g1,
    head (Re.matches (Re.Star DIRECTORY) (dir ++ t) g) = Some (t, g1)
    /\ Re.group 2 g1 = Re.group 2 g.
Proof.
  intros [-> | (d & ->)] Hnl Ht; rewrite matches_star.
  - exists g. by rewrite star_no_step by (by apply directory_none).
  - exists ((1%nat, d ++ [SLASH]) :: g). split; [| done].
    assert (NEWLINE ∉ d) as Hd
      by (intros H; apply Hnl, elem_of_app; by left).
    replace ((d ++ [SLASH]) ++ t) with (d ++ SLASH :: t)
      by (by rewrite <- app_assoc).
    pose proof (directory_head d t g Hd Ht) as Hhead.
    assert (length t < length (d ++ SLASH :: t))%nat as Hshort
      by (rewrite length_app; simpl; lia).
    destruct (length (d ++ SLASH :: t)) as [|n] eqn:Hlen; [lia |].
    rewrite star_matches_S.
    destruct (Re.matches DIRECTORY (d ++ SLASH :: t) g) as [|x l]; [done |].
    cbn [head] in Hhead. simplify_eq. cbn [flat_map fst snd].
    rewrite Hlen, bool_decide_eq_true_2 by done.
    by rewrite star_no_step by (by apply directory_none).
Qed.

Lemma stem_head (base ext : str) g :
  DOT ∉ base ->
  head (Re.matches STEM (base ++ DOT :: ext) g)
  = Some (DOT :: ext, (2%nat, base) :: g).
Proof.
  intros Hb. unfold STEM.
  rewrite matches_group, matches_star_of_class, head_map, head_map.
  rewrite greedy_head_stop.
  - change (Some (DOT :: ext,
                  (2%nat,
                   take (length (base ++ DOT :: ext) - length (DOT :: ext))
                     (base ++ DOT :: ext)) :: g)
            = Some (DOT :: ext, (2%nat, base) :: g)).
    by rewrite take_consumed.
  - apply Forall_forall. intros c Hc. unfold not_dot.
    destruct (N.eqb_spec c DOT) as [-> | _]; [done | done].
  - unfold not_dot. by rewrite N.eqb_refl.
Qed.

Lemma extension_head (ext : str) g :
  NEWLINE ∉ ext ->
  head (Re.matches EXTENSION (DOT :: ext) g)
  = Some ([], (3%nat, DOT :: ext) :: g).
Proof.
  intros He. unfold EXTENSION, ANY.
  rewrite matches_group, matches_seq, matches_chr. unfold is_dot at 1.
  rewrite N.eqb_refl. cbn [flat_map fst snd].
  rewrite app_nil_r, matches_star_of_class, head_map, head_map.
  rewrite greedy_head_all.
  - change (Some (@nil N,
                  (3%nat,
                   take (length (DOT :: ext) - length (@nil N)) (DOT :: ext))
                  :: g)
            = Some (@nil N, (3%nat, DOT :: ext) :: g)).
    pose proof (take_consumed (DOT :: ext) (@nil N)) as Htake.
    rewrite app_nil_r in Htake. by rewrite Htake.
  - apply Forall_forall. intros c Hc. unfold any_char.
    destruct (N.eqb_spec c NEWLINE) as [-> | _]; [done | done].
Qed.

(** The first match of the pattern at the start of a path takes it whole,
    with the text between the last slash and the first dot after it as
    group 2. *)
Lemma name_pattern_head (dir base ext : str) :
  dir = [] \/ (exists d, dir = d ++ [SLASH]) ->
  NEWLINE ∉ dir -> NEWLINE ∉ ext ->
  SLASH ∉ base -> SLASH ∉ ext -> DOT ∉ base ->
  exists g,
    head (Re.matches NAME_PATTERN (dir ++ base ++ DOT :: ext) [])
    = Some ([], g)
    /\ Re.group 2 g = base.
Proof.
  intros Hdir Hnd Hne Hsb Hse Hdb.
  assert (SLASH ∉ base ++ DOT :: ext) as Hst.
  { intros H. apply elem_of_app in H as [H | H]; [done |].
    apply elem_of_cons in H as [H | H]; [discriminate | done]. }
  destruct (directories_head dir (base ++ DOT :: ext) [] Hdir Hnd Hst)
    as (g1 & Hhead & Hg1).
  exists ((3%nat, DOT :: ext) :: (2%nat, base) :: g1). split; [| done].
  unfold NAME_PATTERN. rewrite matches_seq.
  eapply head_flat_map; [exact Hhead |]. cbn [fst snd].
  rewrite matches_seq.
  eapply head_flat_map; [by apply stem_head |]. cbn [fst snd].
  by apply extension_head.
Qed.

Lemma sub_from_skipped r k (s : str) : forall n,
  head (Re.matches r [] []) = None ->
  (length s <= n)%nat ->
  Re.sub_from r k n s = [].
Proof.
  induction s as [|c s IH]; intros n Hend Hn.
  - simpl. rewrite Hend. by destruct n.
  - destruct n as [|n]; [simpl in Hn; lia |].
    simpl. apply IH; [done | simpl in Hn; lia].
Qed.

(** X18. The default name of the documents is the base name of the source
    file: for a path without newline that ends, after its directories, with
    a name that has a dot, it is the text between the last slash and the
    first dot after it.  All the extensions go ([song.v2.txt] gives [song]),
    and a name that starts with a dot gives the empty name. *)
Theorem default_name_is_base_name (dir base ext : str) :
  dir = [] \/ (exists d, dir = d ++ [SLASH]) ->
  NEWLINE ∉ dir -> NEWLINE ∉ ext ->
  SLASH ∉ base -> SLASH ∉ ext -> DOT ∉ base ->
  default_name_of (dir ++ base ++ DOT :: ext) = base.
Proof.
  intros Hdir Hnd Hne Hsb Hse Hdb.
  destruct (name_pattern_head dir base ext Hdir Hnd Hne Hsb Hse Hdb)
    as (g & Hhead & Hg).
  unfold default_name_of, Re.sub.
  destruct (dir ++ base ++ DOT :: ext) as [|c s] eqn:Hs.
  { destruct dir, base; discriminate. }
  cbn [Re.sub_from]. rewrite Hhead, Hg.
  cbn [length]. rewrite Nat.sub_0_r. cbn [Nat.eqb].
  rewrite sub_from_skipped; [by rewrite app_nil_r | reflexivity | simpl; lia].
Qed.

Lemma default_name_is_base_name_witness :
  default_name_of
    (lit "/home/band/my.songs/" ++ lit "song" ++ DOT :: lit "v2.txt")
  = lit "song".
Proof.
  apply (default_name_is_base_name (lit "/home/band/my.songs/") (lit "song")
           (lit "v2.txt")).
  - right. exists (lit "/home/band/my.songs"). reflexivity.
  - eapply bool_decide_unpack. vm_compute. exact I.
  - eapply bool_decide_unpack. vm_compute. exact I.
  - eapply bool_decide_unpack. vm_compute. exact I.
  - eapply bool_decide_unpack. vm_compute. exact I.
  - eapply bool_decide_unpack. vm_compute. exact I.
Defined.

(** What a pattern leaves is the end of the text it was tried on. *)
Lemma star_matches_rest step :
  (forall (s : str) g rest g', (rest, g') ∈ step s g -> rest `suffix_of` s) ->
  forall (n : nat) (s : str) g rest g',
    (rest, g') ∈ Re.star_matches step n s g -> rest `suffix_of` s.
Proof.
  intros Hstep n. induction n as [|n IH]; intros s g rest g' H.
  - simpl in H. apply list_elem_of_singleton in H. by simplify_eq.
  - rewrite star_matches_S in H. apply elem_of_app in H as [H | H].
    + apply list_elem_of_In, in_flat_map in H as ([s1 g1] & H1 & H2).
      simpl in H2. case_bool_decide; [| done].
      apply list_elem_of_In in H1, H2.
      etrans; [by eapply IH | by eapply Hstep].
    + apply list_elem_of_singleton in H. by simplify_eq.
Qed.

Lemma matches_rest r : forall (s : str) g rest g',
  (rest, g') ∈ Re.matches r s g -> rest `suffix_of` s.
Proof.
  induction r as [p | r1 IH1 r2 IH2 | r IH | n r IH]; intros s g rest g' H.
  - rewrite matches_chr in H.
    destruct s as [|c s]; [by apply elem_of_nil in H |].
    destruct (p c); [| by apply elem_of_nil in H].
    apply list_elem_of_singleton in H. simplify_eq. by apply suffix_cons_r.
  - rewrite matches_seq in H.
    apply list_elem_of_In, in_flat_map in H as ([s1 g1] & H1 & H2).
    apply list_elem_of_In in H1, H2. simpl in H2.
    etrans; [by eapply IH2 | by eapply IH1].
  - rewrite matches_star in H. by eapply star_matches_rest.
  - rewrite matches_group in H.
    apply list_elem_of_fmap in H as ([s1 g1] & Heq & H1).
    simpl in Heq. simplify_eq. by eapply IH.
Qed.

Lemma flat_map_nil {A B} (f : A -> list B) (l : list A) :
  (forall x, x ∈ l -> f x = []) -> flat_map f l = [].
Proof.
  induction l as [|x l IH]; intros H; [done |]. simpl.
  rewrite (H x) by apply list_elem_of_here. apply IH.
  intros y Hy. apply H. by apply list_elem_of_further.
Qed.

Lemma extension_none (s : str) g : DOT ∉ s -> Re.matches EXTENSION s g = [].
Proof.
  intros H. unfold EXTENSION. rewrite matches_group, matches_seq, matches_chr.
  destruct s as [|c s]; [done |].
  apply not_elem_of_cons in H as [Hc _]. unfold is_dot.
  by destruct (N.eqb_spec c DOT).
Qed.

Lemma name_pattern_none (s : str) g :
  DOT ∉ s -> Re.matches NAME_PATTERN s g = [].
Proof.
  intros H. unfold NAME_PATTERN. rewrite matches_seq.
  apply flat_map_nil. intros [s1 g1] H1. cbn [fst snd].
  apply matches_rest in H1 as [k1 ->].
  rewrite matches_seq. apply flat_map_nil. intros [s2 g2] H2. cbn [fst snd].
  apply matches_rest in H2 as [k2 ->].
  apply extension_none. intros Hin. apply H.
  apply elem_of_app. right. apply elem_of_app. by right.
Qed.

Lemma sub_from_no_match r k (s : str) :
  (forall t, t `suffix_of` s -> Re.matches r t [] = []) ->
  Re.sub_from r k 0 s = s.
Proof.
  induction s as [|c s IH]; intros H.
  - simpl. by rewrite H.
  - cbn [Re.sub_from]. rewrite H by done. simpl. f_equal. apply IH.
    intros t Ht. apply H. by apply suffix_cons_r.
Qed.

(** X19. A source file whose path has no dot gives its whole path as
    default name, directories and all, whatever its characters. *)
Theorem default_name_without_dot (src_filename : str) :
  DOT ∉ src_filename -> default_name_of src_filename = src_filename.
Proof.
  intros H. unfold default_name_of, Re.sub. apply sub_from_no_match.
  intros t [k ->]. apply name_pattern_none.
  intros Hin. apply H. apply elem_of_app. by right.
Qed.

Lemma default_name_without_dot_witness :
  default_name_of (lit "charts/song") = lit "charts/song".
Proof.
  apply (default_name_without_dot (lit "charts/song")).
  eapply bool_decide_unpack. vm_compute. exact I.
Defined.

(** The default names of some source files, as Python gives them. *)
Example default_name_samples :
  map (fun s => default_name_of (lit s))
    ["song.txt"; "dir/song.txt"; "/a/b.c/song.v2.txt"; "song"; "my.dir/song";
     ".bashrc"; "dir/"; "a.b/c.d/e"; "a."; "a/b.c/d"]%string
  = map lit
      ["song"; "song"; "song"; "song"; "my"; ""; "dir/"; "c"; "a"; "b"]%string.
Proof. vm_compute. reflexivity. Qed.
